(** * groupcache: duplicate-call suppression and the HTTP peer pool

    A shallow embedding of [singleflight/singleflight.go] and [http.go],
    with the properties their specification states.

    - [singleflight]: the goroutines that are inside [Group.Do] are threads
      of a small interleaving machine.  What [Do] does under [g.mu] is one
      atomic step, taken only while no [Lock(fn)] holds the mutex; the
      loader call, [c.wg.Done()] and the deferred [delete] are steps of
      their own, so that every interleaving the mutex allows is a run of the
      machine.
    - [groupcache]: [HTTPPool] (construction, [PickPeer], [ServeHTTP]) and
      [httpGetter] ([Get], [Remove]) as functions; what they call outside of
      this repository's two files (the hash ring, the group registry, the
      HTTP round trip, the wire codec) is taken as a parameter.  [Get]
      passes the buffers of [bufferPool] along: the body of a response is
      read into a pooled [bytes.Buffer], and the [Body] of a remote-load
      error is a slice of that buffer. *)

From Stdlib Require Import ZArith Ascii String DecimalString.
From stdpp Require Import gmap strings list fin_maps functions.

Local Open Scope string_scope.
Local Open Scope Z_scope.
Set Warnings "-register-all,-clear-no-such-hyp".

(** ** Byte slices

    A [[]byte] of http.go is [nil], or what [b.Bytes()] gave for a
    [bytes.Buffer]: the first [len] bytes of buffer [buf], taken when the
    buffer had been modified [at_] times.  "The slice is valid for use only
    until the next buffer modification": what such a slice holds is read
    through the buffers, see [bytes_of] below. *)
Inductive Slice : Type :=
| nil_slice
| slice_of (buf : nat) (at_ : nat) (len : nat).

(** ** Go's [error] values

    An [error] interface value is [option error], [None] being [nil]. *)

Inductive error : Type :=
| errorString (msg : string)
    (* errors.Errorf / fmt.Errorf, and errors of the libraries below us *)
| withMessage (cause : error) (msg : string)
    (* the message layer of errors.Wrapf *)
| withStack (e : error)
    (* the stack layer of errors.Wrapf *)
| BadGroupcacheRequestError (message : string)
| GroupNotFoundError (group : string)
| RemoteLoadError (Group Key : string) (StatusCode : Z) (Status : string)
    (Body : Slice) (Err : option error).

(** [errors.Wrapf(err, msg)] for an [err] that is not nil: a stack over a
    message over [err]. *)
Definition Wrapf (err : error) (msg : string) : error :=
  withStack (withMessage err msg).

(** * Package singleflight *)

Module singleflight.

(** [time.Time] after [.UTC()]: a wall-clock instant, counted in nanoseconds
    from the zero instant (January 1, year 1, 00:00:00 UTC). *)
Definition Time : Type := Z.
Definition zeroTime : Time := 0.
Definition IsZero (t : Time) : bool := t =? 0.
Definition Before (t u : Time) : bool := t <? u.

(** [errors.Errorf("singleflight leader panicked")] *)
Definition leaderPanicked : error := errorString "singleflight leader panicked".

Section Flight.

(** The values a loader returns ([interface{}]); [None] is [nil]. *)
Context {V : Type}.

(** What a call of the loader [fn] does when it comes back: it returns a
    value and an error, or it panics with a value.  A loader that has not
    come back is a goroutine at [AtCall] that is not scheduled; one that
    never comes back, or that calls [Do] with its own key and so waits for
    itself, stays there for good.  The machine says what states the group
    can be in and what a step does, not that every goroutine leaves
    [Do]. *)
Inductive outcome : Type :=
| Returns (v : option V) (e : option error)
| Panics (p : V).

(** [type call struct]; [wg] is the counter of the [sync.WaitGroup]. *)
Record call : Type := Call {
  wg : nat;
  created : Time;
  val : option V;
  err : option error
}.

(** A [*call]. *)
Definition loc : Type := nat.

(** Which branch of [Do] a goroutine took. *)
Inductive role : Type :=
| Leader (key : string) (c : loc)
| Follower (key : string) (c : loc).

(** Where a goroutine is inside [g.Do(key, fn)]. *)
Inductive pc : Type :=
| AtEntry (key : string) (fn : outcome)
    (* before [g.mu.Lock()], line 47 *)
| AtWait (key : string) (c : loc)
    (* found [c] in the map; at [c.wg.Wait()], line 53 *)
| AtCall (key : string) (c : loc) (fn : outcome)
    (* inserted [c], registered the deferred function; at [fn()], line 71 *)
| AtDone (key : string) (c : loc) (r : outcome)
    (* [fn] is over; the deferred function is at [c.wg.Done()], line 65 *)
| AtDelete (key : string) (c : loc) (r : outcome)
    (* the deferred function is at [g.mu.Lock()], line 66 *)
| Exited (who : role) (r : outcome).
    (* [Do] is over: it returned, or the panic left it *)

(** The [Group], the calls it points to, the goroutines inside [Do], and a
    log of the loader calls made (goroutine, call, what the loader did). *)
Record state : Type := State {
  g_mu : bool;                      (* [g.mu] is held by a [Lock(fn)] *)
  g_m : option (gmap string loc);   (* [g.m], [None] is the nil map *)
  heap : loc → call;
  next : loc;                       (* the next fresh [*call] *)
  threads : list pc;
  execs : list (nat * loc * outcome)
}.

Definition the_map (s : state) : gmap string loc := default ∅ (g_m s).

Definition init : state :=
  {| g_mu := false;
     g_m := None;
     heap := λ _, Call 0 zeroTime None None;
     next := 0%nat;
     threads := [];
     execs := [] |}.

(** What happens next. *)
Inductive action : Type :=
| Do (key : string) (fn : outcome)
    (* a goroutine calls [g.Do(key, fn)] *)
| Sched (t : nat) (now : Time)
    (* goroutine [t] takes its next step; [now] is what the clock shows *)
| Lock
    (* a goroutine calls [g.Lock(fn)], takes [g.mu] and starts [fn] *)
| Unlock.
    (* the [fn] of [Lock] is over: the deferred [g.mu.Unlock()] *)

Definition store (r : outcome) (c : call) : call :=
  match r with
  | Returns v e => Call (wg c) (created c) v e     (* c.val, c.err = fn() *)
  | Panics _ => c
  end.

(** What leaves [fn()] and line 72: the panic, or [return c.val, c.err]. *)
Definition leaves (r : outcome) (c : call) : outcome :=
  match r with
  | Returns _ _ => Returns (val c) (err c)
  | Panics p => Panics p
  end.

Definition step (a : action) (s : state) : option state :=
  match a with
  | Do key fn =>
      Some (State (g_mu s) (g_m s) (heap s) (next s)
                  (threads s ++ [AtEntry key fn]) (execs s))
  | Lock =>
      if g_mu s then None
      else Some (State true (g_m s) (heap s) (next s) (threads s) (execs s))
  | Unlock =>
      if g_mu s
      then Some (State false (g_m s) (heap s) (next s) (threads s) (execs s))
      else None
  | Sched t now =>
      p ← threads s !! t;
      match p with
      | AtEntry key fn =>
          (* lines 47-62, under g.mu *)
          if g_mu s then None
          else
            let m := the_map s in
            match m !! key with
            | Some c =>
                Some (State false (Some m) (heap s) (next s)
                            (<[t := AtWait key c]> (threads s)) (execs s))
            | None =>
                let c := next s in
                Some (State false (Some (<[key := c]> m))
                            (<[c := Call 1 now None (Some leaderPanicked)]>
                               (heap s))
                            (S c)
                            (<[t := AtCall key c fn]> (threads s)) (execs s))
            end
      | AtWait key c =>
          (* lines 53-54 *)
          if decide (wg (heap s c) = 0%nat)
          then Some (State (g_mu s) (g_m s) (heap s) (next s)
                           (<[t := Exited (Follower key c)
                                     (Returns (val (heap s c))
                                              (err (heap s c)))]>
                              (threads s))
                           (execs s))
          else None
      | AtCall key c fn =>
          (* lines 71-72 *)
          let c' := store fn (heap s c) in
          Some (State (g_mu s) (g_m s) (<[c := c']> (heap s)) (next s)
                      (<[t := AtDone key c (leaves fn c')]> (threads s))
                      ((t, c, fn) :: execs s))
      | AtDone key c r =>
          (* line 65 *)
          let c0 := heap s c in
          Some (State (g_mu s) (g_m s)
                      (<[c := Call (wg c0 - 1) (created c0) (val c0) (err c0)]>
                         (heap s))
                      (next s)
                      (<[t := AtDelete key c r]> (threads s)) (execs s))
      | AtDelete key c r =>
          (* lines 66-68, under g.mu *)
          if g_mu s then None
          else
            Some (State false (delete key <$> g_m s) (heap s) (next s)
                        (<[t := Exited (Leader key c) r]> (threads s))
                        (execs s))
      | Exited _ _ => None
      end
  end.

Fixpoint run (acts : list action) (s : state) : option state :=
  match acts with
  | [] => Some s
  | a :: acts' => s' ← step a s; run acts' s'
  end.

Definition reachable (s : state) : Prop := ∃ acts, run acts init = Some s.

(** [Count], under g.mu. *)
Definition Count (s : state) : Z := Z.of_nat (size (the_map s)).

(** [LongestRunningStartTime], under g.mu.  [range g.m] visits the entries
    in an order Go does not fix: [entries] is that order. *)
Definition oldest_step (h : loc → call) (oldest : Time) (e : string * loc)
  : Time :=
  if IsZero oldest || Before (created (h e.2)) oldest
  then created (h e.2) else oldest.

Definition LongestRunningStartTime (s : state) (entries : list (string * loc))
  : Time :=
  fold_left (oldest_step (heap s)) entries zeroTime.

(** The orders [range g.m] can take. *)
Definition range_of (s : state) (entries : list (string * loc)) : Prop :=
  entries ≡ₚ map_to_list (the_map s).

(** *** The invariant of the machine *)

(** [p] is (or was) the leader of call [c]. *)
Definition leads (p : pc) (c : loc) : Prop :=
  match p with
  | AtCall _ c' _ | AtDone _ c' _ | AtDelete _ c' _
  | Exited (Leader _ c') _ => c' = c
  | _ => False
  end.

(** [p] is the leader of [c], between the insertion and the removal of
    [key]'s entry. *)
Definition in_flight (p : pc) (key : string) (c : loc) : Prop :=
  match p with
  | AtCall k c' _ | AtDone k c' _ | AtDelete k c' _ => k = key ∧ c' = c
  | _ => False
  end.

(** What a call holds once its loader did [r]. *)
Definition stored (r : outcome) (cl : call) : Prop :=
  match r with
  | Returns v e => val cl = v ∧ err cl = e
  | Panics _ => val cl = None ∧ err cl = Some leaderPanicked
  end.

Definition no_exec_by (ex : list (nat * loc * outcome)) (t : nat) : Prop :=
  ∀ c r, (t, c, r) ∉ ex.

Definition ran (ex : list (nat * loc * outcome)) (t : nat) (c : loc)
    (r : outcome) (cl : call) : Prop :=
  (t, c, r) ∈ ex ∧ (∀ c' r', (t, c', r') ∈ ex → c' = c ∧ r' = r) ∧ stored r cl.

Definition pc_ok (m : gmap string loc) (h : loc → call) (n : loc)
    (ex : list (nat * loc * outcome)) (t : nat) (p : pc) : Prop :=
  match p with
  | AtEntry _ _ => no_exec_by ex t
  | AtWait _ c => (c < n)%nat ∧ no_exec_by ex t
  | AtCall k c _ =>
      (c < n)%nat ∧ m !! k = Some c ∧ wg (h c) = 1%nat ∧
      val (h c) = None ∧ err (h c) = Some leaderPanicked ∧
      (∀ t' r, (t', c, r) ∉ ex) ∧ no_exec_by ex t
  | AtDone k c r =>
      (c < n)%nat ∧ m !! k = Some c ∧ wg (h c) = 1%nat ∧ ran ex t c r (h c)
  | AtDelete k c r =>
      (c < n)%nat ∧ m !! k = Some c ∧ wg (h c) = 0%nat ∧ ran ex t c r (h c)
  | Exited (Leader _ c) r =>
      (c < n)%nat ∧ wg (h c) = 0%nat ∧ ran ex t c r (h c)
  | Exited (Follower _ c) r =>
      (c < n)%nat ∧ wg (h c) = 0%nat ∧
      r = Returns (val (h c)) (err (h c)) ∧ no_exec_by ex t
  end.

(** [p] reads the fields of call [c]. *)
Definition reads (p : pc) (c : loc) : Prop :=
  match p with
  | Exited (Follower _ c') _ => c' = c
  | _ => leads p c
  end.

Record inv (s : state) : Prop := Inv {
  inv_pc : ∀ t p, threads s !! t = Some p →
    pc_ok (the_map s) (heap s) (next s) (execs s) t p;
  inv_one_leader : ∀ t1 t2 p1 p2 c,
    threads s !! t1 = Some p1 → threads s !! t2 = Some p2 →
    leads p1 c → leads p2 c → t1 = t2;
  inv_has_leader : ∀ c, (c < next s)%nat →
    ∃ t p, threads s !! t = Some p ∧ leads p c;
  inv_map_leader : ∀ k c, the_map s !! k = Some c →
    ∃ t p, threads s !! t = Some p ∧ in_flight p k c;
  inv_execs_thread : ∀ t c r, (t, c, r) ∈ execs s → is_Some (threads s !! t);
  inv_execs_nodup : NoDup (execs s)
}.

(** The clock never shows the zero instant. *)
Definition clock_after_zero (acts : list action) : Prop :=
  Forall (λ a, match a with Sched _ now => now ≠ zeroTime | _ => True end)
         acts.

(** [p] is between the insertion and the removal of its entry. *)
Definition leading (p : pc) : bool :=
  match p with
  | AtCall _ _ _ | AtDone _ _ _ | AtDelete _ _ _ => true
  | _ => false
  end.

(** How many goroutines lead a call in flight. *)
Definition leaders (s : state) : nat :=
  length (List.filter leading (threads s)).

(** The call a goroutine was on when it left [Do]. *)
Definition call_of (who : role) : loc :=
  match who with
  | Leader _ c | Follower _ c => c
  end.

(** [c.wg.Done()] is still to come. *)
Definition before_Done (p : pc) : bool :=
  match p with
  | AtCall _ _ _ | AtDone _ _ _ => true
  | _ => false
  end.

(** One [Do(key, fn)] from its call to its return, nothing in between:
    the goroutine is the next one, [t]; the clock shows [now] and later. *)
Definition Do_alone (t : nat) (key : string) (fn : outcome) (now : Time)
  : list action :=
  [Do key fn; Sched t now; Sched t (now + 1); Sched t (now + 2);
   Sched t (now + 3)].

End Flight.

(** Two runs, with integers as loader values.  In [shared_run] goroutine 0
    leads key k and goroutine 1 follows it; the loader of goroutine 0 returns
    7.  In [panicking_run] the loader of goroutine 0 panics instead. *)
Definition shared_run : list (@action Z) :=
  [Do "k" (Returns (Some 7) None); Do "k" (Returns (Some 8) None);
   Sched 0 100; Sched 1 101; Sched 0 102; Sched 0 103; Sched 1 104;
   Sched 0 105].

Definition panicking_run : list (@action Z) :=
  [Do "k" (Panics 1); Do "k" (Returns (Some 8) None);
   Sched 0 100; Sched 1 101; Sched 0 102; Sched 0 103; Sched 1 104;
   Sched 0 105].

(** [panicking_run] up to the panic: the loader of goroutine 0 has
    panicked, its deferred function has not called [Done] yet, and goroutine
    1 waits. *)
Definition panicking_waiting : list (@action Z) :=
  [Do "k" (Panics 1); Do "k" (Returns (Some 8) None);
   Sched 0 100; Sched 1 101; Sched 0 102].

(** Goroutines 0 and 1 lead keys a and b; goroutine 2 follows a. *)
Definition two_keys_run : list (@action Z) :=
  [Do "a" (Returns (Some 1) None); Do "b" (Returns (Some 2) None);
   Do "a" (Returns (Some 3) None);
   Sched 0 500; Sched 1 300; Sched 2 700].

Definition after (acts : list (@action Z)) : @state Z :=
  default init (run acts init).

(** Goroutine 0 leads key k and is in its loader when a [Lock(fn)] takes the
    mutex; [under_lock] is what happens then: the loader returns, the signal
    fires, and another goroutine calls [Do]. *)
Definition locked_run : list (@action Z) :=
  [Do "k" (Returns (Some 7) None); Sched 0 100; Lock].

Definition under_lock : list (@action Z) :=
  [Sched 0 101; Sched 0 102; Do "j" (Returns (Some 8) None)].

End singleflight.

(** * Package groupcache: http.go *)

Module groupcache.

(** ** The pieces of Go's library that http.go uses

    A [[]byte] is a [string] here, as a Go string is: a sequence of
    bytes. *)

(** [strings.IndexByte]: where the first [c] is, [None] for -1. *)
Fixpoint IndexByte (s : string) (c : ascii) : option nat :=
  match s with
  | EmptyString => None
  | String a s' => if decide (a = c) then Some 0%nat else S <$> IndexByte s' c
  end.

(** [s[:n]] and [s[n:]]. *)
Fixpoint str_take (n : nat) (s : string) : string :=
  match n, s with
  | S n', String a s' => String a (str_take n' s')
  | _, _ => EmptyString
  end.

Fixpoint str_drop (n : nat) (s : string) : string :=
  match n, s with
  | S n', String _ s' => str_drop n' s'
  | _, _ => s
  end.

(** [strings.HasPrefix]. *)
Fixpoint HasPrefix (s prefix : string) {struct prefix} : bool :=
  match prefix, s with
  | EmptyString, _ => true
  | String a p', String b s' => bool_decide (a = b) && HasPrefix s' p'
  | String _ _, EmptyString => false
  end.

(** The loop of [strings.genSplit] for a separator of one byte, with [n]
    cuts still allowed. *)
Fixpoint genSplit (s : string) (sep : ascii) (n : nat) : list string :=
  match n with
  | O => [s]
  | S n' =>
      match IndexByte s sep with
      | None => [s]
      | Some m => str_take m s :: genSplit (str_drop (S m) s) sep n'
      end
  end.

(** [strings.SplitN(s, sep, n)], [sep] one byte. *)
Definition SplitN (s : string) (sep : ascii) (n : Z) : list string :=
  if n =? 0 then []
  else if n <? 0 then genSplit s sep (String.length s)
  else genSplit s sep (Z.to_nat (n - 1)).

Definition slash : ascii := "/"%char.
Definition newline : string := String (ascii_of_nat 10) EmptyString.

(** [%d]. *)
Definition Itoa (n : Z) : string := NilZero.string_of_int (Z.to_int n).

Definition StatusOK : Z := 200.
Definition StatusBadRequest : Z := 400.
Definition StatusNotFound : Z := 404.
Definition StatusInternalServerError : Z := 500.
Definition MethodGet : string := "GET".
Definition MethodDelete : string := "DELETE".

(** An [http.ResponseWriter], as what the handler has made of it. *)
Record ResponseWriter : Type := Writer {
  Header : gmap string string;
  status : option Z;        (* the status line, once it is written *)
  written : string          (* the body written so far *)
}.

Definition Header_Set (w : ResponseWriter) (k v : string) : ResponseWriter :=
  Writer (<[k := v]> (Header w)) (status w) (written w).

Definition WriteHeader (w : ResponseWriter) (code : Z) : ResponseWriter :=
  match status w with
  | Some _ => w                                   (* superfluous call *)
  | None => Writer (Header w) (Some code) (written w)
  end.

Definition Write (w : ResponseWriter) (b : string) : ResponseWriter :=
  let w' := WriteHeader w StatusOK in
  Writer (Header w') (status w') (written w' +:+ b).

(** [http.Error]. *)
Definition http_Error (w : ResponseWriter) (msg : string) (code : Z)
  : ResponseWriter :=
  let w := Header_Set w "Content-Type" "text/plain; charset=utf-8" in
  let w := Header_Set w "X-Content-Type-Options" "nosniff" in
  let w := WriteHeader w code in
  Write w (msg +:+ newline).

(** What reading a body to its end gives: the bytes, and the error that
    stopped the reading if one did; and whether the body is an
    [io.WriterTo] ([http.NoBody] is one), which decides how [io.Copy]
    moves it. *)
Record ReadCloser : Type := Reader {
  data : string;
  readErr : option error;
  writerTo : bool
}.

(** An [http.Response]. *)
Record Response : Type := Resp {
  StatusCode : Z;
  Status : string;
  Body : ReadCloser
}.

(** ** [bytes.Buffer] and [bufferPool]

    A [bytes.Buffer] as [Get] uses it (nothing is read from it, so its read
    offset stays 0): whether it has an array, the bytes it holds, and how
    many times it has been modified. *)
Record Buffer : Type := Buf {
  allocated : bool;
  contents : string;
  modified : nat
}.

(** [new(bytes.Buffer)]. *)
Definition new_Buffer : Buffer := Buf false "" 0.

(** [b.Reset()]: the length goes to 0, the array stays. *)
Definition Reset (b : Buffer) : Buffer :=
  Buf (allocated b) "" (S (modified b)).

(** [b.Bytes()] of the buffer at address [id]: a slice of the array, nil
    when there is none. *)
Definition Buffer_Bytes (id : nat) (b : Buffer) : Slice :=
  if allocated b
  then slice_of id (modified b) (String.length (contents b))
  else nil_slice.

(** [io.Copy(b, src)]: the buffer afterwards, and the error.  A source
    that is an [io.WriterTo] writes to the buffer itself, and the buffer
    gets an array with its first byte; for any other source the buffer
    reads from it ([ReadFrom]), which makes room, and so an array, before
    the first read. *)
Definition io_Copy (b : Buffer) (src : ReadCloser) : Buffer * option error :=
  (Buf (allocated b || negb (writerTo src) || bool_decide (data src ≠ ""))
       (contents b +:+ data src)
       (S (modified b)),
   readErr src).

(** The buffers of the process: those [New] has made so far, by address,
    and the addresses that are in [bufferPool]. *)
Record Buffers : Type := Bufs {
  bufs : nat → Buffer;
  made : nat;
  pooled : list nat
}.

Definition no_buffers : Buffers := Bufs (λ _, new_Buffer) 0 [].

(** [bufferPool.Get()]: "Get selects an arbitrary item from the Pool,
    removes it from the Pool, and returns it to the caller.  Get may choose
    to ignore the pool and treat it as empty."  [pick] is the position of
    the item selected; with [None], or a position the pool does not have,
    [New] makes a buffer ([pool_New]).  The result is the address and the
    buffers afterwards. *)
Definition pool_New (st : Buffers) : nat * Buffers :=
  (made st,
   Bufs (<[made st := new_Buffer]> (bufs st)) (S (made st)) (pooled st)).

Definition pool_Get (st : Buffers) (pick : option nat) : nat * Buffers :=
  match pick with
  | Some i =>
      match pooled st !! i with
      | Some b => (b, Bufs (bufs st) (made st) (delete i (pooled st)))
      | None => pool_New st
      end
  | None => pool_New st
  end.

(** [bufferPool.Put(b)]. *)
Definition pool_Put (st : Buffers) (b : nat) : Buffers :=
  Bufs (bufs st) (made st) (b :: pooled st).

Definition set_buf (st : Buffers) (b : nat) (buf : Buffer) : Buffers :=
  Bufs (<[b := buf]> (bufs st)) (made st) (pooled st).

(** What a slice holds, read now: its bytes as long as the buffer has not
    been modified since the slice was taken, and [None] from then on, when
    the bytes under the slice are those of the buffer's later uses. *)
Definition bytes_of (st : Buffers) (s : Slice) : option string :=
  match s with
  | nil_slice => Some ""
  | slice_of b at_ n =>
      if decide (modified (bufs st b) = at_)
      then Some (str_take n (contents (bufs st b)))
      else None
  end.

(** ** The wire messages (package groupcachepb) *)

(** Modelled from the spec: "GetRequest: { group name, key }", with the
    getters of its fields; "GetResponse: { value bytes, expiration instant
    in nanoseconds since epoch (0 = no expiration) }". *)
Record GetRequest : Type := GetReq {
  Group : option string;
  Key : option string
}.

Definition pb_GetGroup (r : GetRequest) : string := default "" (Group r).
Definition pb_GetKey (r : GetRequest) : string := default "" (Key r).

Record GetResponse : Type := GetResp {
  Value : string;
  Expire : option Z
}.

(** ** What http.go calls outside of itself *)

(** Modelled from the spec: package consistenthash, "consumed here only
    through its contract: Add(peers), Get(key) -> peer, IsEmpty()". *)
Class HashRing (Ring Hash : Type) : Type := {
  ring_New : Z → option Hash → Ring;
  ring_Add : Ring → list string → Ring;
  ring_Get : Ring → string → string;
  ring_IsEmpty : Ring → bool
}.

(** Modelled from the spec: the local cache groups, "an abstract local
    cache group exposing Get, localRemove, and a registry lookup by name".
    [group_Get] is [group.Get(ctx, key, value)] on a fresh allocating sink:
    its error and what the sink holds afterwards. *)
Class Groups (Ctx GroupT Sink : Type) : Type := {
  GetGroup : string → option GroupT;
  group_Get : GroupT → Ctx → string → option error * Sink;
  sink_bytes : Sink → string;                          (* b *)
  sink_view : Sink → error + singleflight.Time;        (* value.view(), its e *)
  UnixNano : singleflight.Time → Z
}.

(** Go's library and the wire codec: [%q], [url.PathEscape],
    [http.NewRequestWithContext], [http.DefaultTransport] (a
    [RoundTripper], as a function from the request to what [RoundTrip]
    returns), [proto.Marshal] and [proto.Unmarshal]. *)
Class Wire (Ctx HReq : Type) : Type := {
  Quote : string → string;
  PathEscape : string → string;
  NewRequestWithContext : Ctx → string → string → error + HReq;
  DefaultTransport : HReq → error + Response;
  Marshal : GetResponse → error + string;
  Unmarshal : string → error + GetResponse
}.

(** ** http.go *)

Definition defaultBasePath : string := "/_groupcache/".
Definition defaultReplicas : Z := 50.

Section Http.

Context {Ctx GroupT Sink Ring Hash HReq : Type}.
Context `{!HashRing Ring Hash, !Groups Ctx GroupT Sink, !Wire Ctx HReq}.

(** An [http.Request], as far as the handler reads it. *)
Record Request : Type := Req {
  Method : string;
  URL_Path : string;
  Context_ : Ctx          (* r.Context() *)
}.

Definition RoundTripper : Type := HReq → error + Response.

Definition ErrorHandler : Type :=
  Ctx → ResponseWriter → Request → error → ResponseWriter.

Record HTTPPoolOptions : Type := Options {
  BasePath : string;
  Replicas : Z;
  HashFn : option Hash;
  Transport : option (Ctx → RoundTripper);
  Context : option (Request → Ctx);
  ServerErrorHandler : option ErrorHandler
}.

Record httpGetter : Type := Getter {
  getTransport : option (Ctx → RoundTripper);
  baseURL : string
}.

Record HTTPPool : Type := Pool {
  self : string;
  opts : HTTPPoolOptions;
  peers : Ring;
  httpGetters : gmap string httpGetter
}.

(** [Error()] of the error values. *)
Fixpoint Error (e : error) : string :=
  match e with
  | errorString msg => msg
  | withMessage cause msg => msg +:+ ": " +:+ Error cause
  | withStack e' => Error e'
  | BadGroupcacheRequestError message => message
  | GroupNotFoundError group => "group not found: " +:+ Quote group
  | RemoteLoadError _ _ _ _ _ Err =>
      "remote load error: " +:+
      match Err with Some e' => Error e' | None => "<nil>" end
  end.

(** [errors.Unwrap(e)]: the [Unwrap()] of the errors that have one. *)
Definition Unwrap (e : error) : option error :=
  match e with
  | withMessage cause _ => Some cause
  | withStack e' => Some e'
  | RemoteLoadError _ _ _ _ _ Err => Err
  | _ => None
  end.

(** [n] times [errors.Unwrap]. *)
Fixpoint Unwraps (n : nat) (e : error) : option error :=
  match n with
  | O => Some e
  | S n' => Unwrap e ≫= Unwraps n'
  end.

(** The remote-load error shape, with a cause to retrieve. *)
Definition normalized (e : error) : Prop :=
  ∃ g k code st body cause,
    e = RemoteLoadError g k code st body (Some cause) ∧ Unwrap e = Some cause.

(** [DefaultServerErrorHandler]; the debug log line is left out. *)
Definition DefaultServerErrorHandler : ErrorHandler :=
  λ ctx w r err,
    match err with
    | BadGroupcacheRequestError _ => http_Error w (Error err) StatusBadRequest
    | GroupNotFoundError _ => http_Error w (Error err) StatusNotFound
    | _ => http_Error w (Error err) StatusInternalServerError
    end.

(** The process: [httpPoolMade], and the peer picker that is registered. *)
Record Process : Type := Proc {
  httpPoolMade : bool;
  portPicker : option HTTPPool
}.

(** Modelled from the spec: [RegisterPeerPicker], which is not in http.go,
    "a process-wide peer-picking registration hook (register a peer-picker
    factory)".  The factory that [NewHTTPPoolOpts] registers returns the
    pool; the process keeps it. *)
Definition RegisterPeerPicker (p : HTTPPool) (st : Process) : Process :=
  Proc (httpPoolMade st) (Some p).

Definition fresh : Process := Proc false None.

Inductive constructed : Type :=
| NewPanics (msg : string)
| NewReturns (p : HTTPPool) (st : Process).

Definition zeroOptions : HTTPPoolOptions :=
  Options "" 0 None None None None.

(** [NewHTTPPoolOpts]. *)
Definition NewHTTPPoolOpts (self_ : string) (o : option HTTPPoolOptions)
    (st : Process) : constructed :=
  if httpPoolMade st
  then NewPanics "groupcache: NewHTTPPool must be called only once"
  else
    let st := Proc true (portPicker st) in
    let op := match o with Some o' => o' | None => zeroOptions end in
    let base :=
      if decide (BasePath op = "") then defaultBasePath else BasePath op in
    let reps := if Replicas op =? 0 then defaultReplicas else Replicas op in
    let seh :=
      match ServerErrorHandler op with
      | None => Some DefaultServerErrorHandler
      | Some f => Some f
      end in
    let p :=
      Pool self_
           (Options base reps (HashFn op) (Transport op) (Context op) seh)
           (ring_New reps (HashFn op))
           ∅ in
    NewReturns p (RegisterPeerPicker p st).

(** Construction attempts, one after the other, in one process. *)
Fixpoint attempts (calls : list (string * option HTTPPoolOptions))
    (st : Process) : list constructed :=
  match calls with
  | [] => []
  | (self_, o) :: rest =>
      let c := NewHTTPPoolOpts self_ o st in
      c :: attempts rest
             (match c with NewReturns _ st' => st' | NewPanics _ => st end)
  end.

(** [Set]. *)
Definition Set_ (p : HTTPPool) (peers_ : list string) : HTTPPool :=
  Pool (self p) (opts p)
       (ring_Add (ring_New (Replicas (opts p)) (HashFn (opts p))) peers_)
       (foldl (λ m peer,
                 <[peer := Getter (Transport (opts p))
                                  (peer +:+ BasePath (opts p))]> m)
              ∅ peers_).

(** [PickPeer]; [None] is the nil getter. *)
Definition PickPeer (p : HTTPPool) (key : string) : option httpGetter * bool :=
  if ring_IsEmpty (peers p) then (None, false)
  else
    let peer := ring_Get (peers p) key in
    if decide (peer ≠ self p) then (httpGetters p !! peer, true)
    else (None, false).

(** What the handler does to its collaborators, in order. *)
Inductive event : Type :=
| EvHandled (err : error)            (* p.opts.ServerErrorHandler(ctx, w, r, err) *)
| EvGetGroup (name : string)         (* GetGroup(name) *)
| EvServerRequests (g : GroupT)      (* group.Stats.ServerRequests.Add(1) *)
| EvLocalRemove (g : GroupT) (key : string)   (* group.localRemove(key) *)
| EvGet (g : GroupT) (key : string).          (* group.Get(ctx, key, value) *)

Inductive served : Type :=
| Panicked (msg : string) (w : ResponseWriter) (trace : list event)
| Served (w : ResponseWriter) (trace : list event).

Definition trace_of (o : served) : list event :=
  match o with
  | Panicked _ _ trace | Served _ trace => trace
  end.

(** [p.opts.ServerErrorHandler(ctx, w, r, err); return] *)
Definition handle (p : HTTPPool) (ctx : Ctx) (w : ResponseWriter) (r : Request)
    (trace : list event) (err : error) : served :=
  match ServerErrorHandler (opts p) with
  | Some f => Served (f ctx w r err) (trace ++ [EvHandled err])
  | None => Panicked "invalid memory address or nil pointer dereference" w trace
  end.

(** [ServeHTTP]. *)
Definition ServeHTTP (p : HTTPPool) (w : ResponseWriter) (r : Request) : served :=
  let ctx :=
    match Context (opts p) with
    | Some f => f r
    | None => Context_ r
    end in
  if negb (HasPrefix (URL_Path r) (BasePath (opts p)))
  then Panicked ("HTTPPool serving unexpected path: " +:+ URL_Path r) w []
  else
    let parts :=
      SplitN (str_drop (String.length (BasePath (opts p))) (URL_Path r))
             slash 2 in
    match parts with
    | [groupName; key] =>
        match GetGroup groupName with
        | None =>
            handle p ctx w r [EvGetGroup groupName]
                   (GroupNotFoundError groupName)
        | Some group =>
            if decide (Method r = MethodDelete)
            then Served w [EvGetGroup groupName; EvServerRequests group;
                           EvLocalRemove group key]
            else
              let trace := [EvGetGroup groupName; EvServerRequests group;
                            EvGet group key] in
              let '(err, value) := group_Get group ctx key in
              match err with
              | Some err => handle p ctx w r trace err
              | None =>
                  match sink_view value with
                  | inl err => handle p ctx w r trace err
                  | inr e =>
                      let expireNano :=
                        if singleflight.IsZero e then 0 else UnixNano e in
                      match Marshal (GetResp (sink_bytes value)
                                             (Some expireNano)) with
                      | inl err => handle p ctx w r trace err
                      | inr body =>
                          Served (Write (Header_Set w "Content-Type"
                                           "application/x-protobuf") body)
                                 trace
                      end
                  end
              end
        end
    | _ =>
        (* len(parts) != 2 *)
        handle p ctx w r []
               (BadGroupcacheRequestError
                  "invalid request URL (missing path parts)")
    end.

(** [makeRequest]: the error, or what [*out] is set to. *)
Definition makeRequest (h : httpGetter) (ctx : Ctx) (method : string)
    (in_ : GetRequest) : error + Response :=
  let u := baseURL h +:+ PathEscape (pb_GetGroup in_) +:+ "/" +:+
           PathEscape (pb_GetKey in_) in
  match NewRequestWithContext ctx method u with
  | inl err => inl err
  | inr req =>
      let tr :=
        match getTransport h with
        | Some f => f ctx
        | None => DefaultTransport
        end in
      match tr req with
      | inl err => inl err
      | inr res => inr res
      end
  end.

Definition newRemoteLoadError (get : GetRequest) (err : error) : error :=
  RemoteLoadError (pb_GetGroup get) (pb_GetKey get) 0 "" nil_slice (Some err).

Definition newRemoteLoadErrorWithResp (get : GetRequest) (resp : Response)
    (body : Slice) (err : error) : error :=
  RemoteLoadError (pb_GetGroup get) (pb_GetKey get) (StatusCode resp) (Status resp)
                  body (Some err).

(** [Get]: the error returned, or [*out] when there is none, and the
    buffers as [Get] leaves them.  [st] is the buffers as [Get] finds them
    and [pick] what [bufferPool.Get()] selects.  The deferred
    [bufferPool.Put(b)] runs when the result has been built, so the [Body]
    of an error is a slice of a buffer that is in the pool again when [Get]
    has returned. *)
Definition Get (h : httpGetter) (ctx : Ctx) (in_ : GetRequest)
    (st : Buffers) (pick : option nat) : (error + GetResponse) * Buffers :=
  match makeRequest h ctx MethodGet in_ with
  | inl err => (inl (newRemoteLoadError in_ err), st)
  | inr res =>
      let b := (pool_Get st pick).1 in           (* b := bufferPool.Get() *)
      let st := (pool_Get st pick).2 in
      let st := set_buf st b (Reset (bufs st b)) in           (* b.Reset() *)
      let copied := io_Copy (bufs st b) (Body res) in
      let st := set_buf st b copied.1 in         (* io.Copy(b, res.Body) *)
      let err := copied.2 in
      let st' := pool_Put st b in                (* deferred *)
      if decide (StatusCode res ≠ StatusOK)
      then (inl (newRemoteLoadErrorWithResp in_ res
                   (Buffer_Bytes b (bufs st b))
                   (errorString ("non-OK response code: " +:+
                                 Itoa (StatusCode res) +:+ " " +:+
                                 Status res))), st')
      else
        match err with
        | Some err =>
            (inl (newRemoteLoadErrorWithResp in_ res nil_slice
                    (Wrapf err "reading response body")), st')
        | None =>
            match Unmarshal (contents (bufs st b)) with
            | inl err =>
                (inl (newRemoteLoadErrorWithResp in_ res
                        (Buffer_Bytes b (bufs st b))
                        (Wrapf err "decoding response body")), st')
            | inr out => (inr out, st')
            end
        end
  end.

(** The buffer [Get] takes from the pool, and what that buffer is when the
    body [src] has been copied into it. *)
Definition Get_takes (st : Buffers) (pick : option nat) : nat :=
  (pool_Get st pick).1.

Definition Get_fills (st : Buffers) (pick : option nat) (src : ReadCloser)
  : Buffer :=
  let old := bufs (pool_Get st pick).2 (Get_takes st pick) in
  Buf (allocated old || negb (writerTo src) || bool_decide (data src ≠ ""))
      (data src) (S (S (modified old))).

Definition Get_leaves (st : Buffers) (pick : option nat) (src : ReadCloser)
  : Buffers :=
  let b := Get_takes st pick in
  let st0 := (pool_Get st pick).2 in
  Bufs (<[b := Get_fills st pick src]> (<[b := Reset (bufs st0 b)]> (bufs st0)))
       (made st0) (b :: pooled st0).

(** [Remove]: the error returned, [None] for nil. *)
Definition Remove (h : httpGetter) (ctx : Ctx) (in_ : GetRequest)
  : option error :=
  match makeRequest h ctx MethodDelete in_ with
  | inl err => Some err
  | inr res =>
      if decide (StatusCode res ≠ StatusOK)
      then
        match readErr (Body res) with          (* io.ReadAll(res.Body) *)
        | Some _ =>
            Some (errorString ("while reading body response: " +:+ Status res))
        | None =>
            Some (errorString ("server returned status " +:+
                               Itoa (StatusCode res) +:+ ": " +:+
                               data (Body res)))
        end
      else None
  end.

(** The context [ServeHTTP] works in. *)
Definition ctx_of (p : HTTPPool) (r : Request) : Ctx :=
  match Context (opts p) with
  | Some f => f r
  | None => Context_ r
  end.

(** The transport [makeRequest] takes. *)
Definition transport_of (h : httpGetter) (ctx : Ctx) : RoundTripper :=
  match getTransport h with
  | Some f => f ctx
  | None => DefaultTransport
  end.

Definition url_of (h : httpGetter) (in_ : GetRequest) : string :=
  baseURL h +:+ PathEscape (pb_GetGroup in_) +:+ "/" +:+ PathEscape (pb_GetKey in_).

(** [GetURL]. *)
Definition GetURL (h : httpGetter) : string := baseURL h.

(** [GetAll]: a slice of [len(p.httpGetters)] nil getters, filled from index
    0 on while [range p.httpGetters] visits the map; [entries] is the order
    of the visit. *)
Definition GetAll (p : HTTPPool) (entries : list (string * httpGetter))
  : list (option httpGetter) :=
  (foldl (λ ir e, (S ir.1, <[ir.1 := Some e.2]> ir.2))
         (0%nat, replicate (size (httpGetters p)) None) entries).2.

(** The orders [range p.httpGetters] can take. *)
Definition range_of (p : HTTPPool) (entries : list (string * httpGetter))
  : Prop :=
  entries ≡ₚ map_to_list (httpGetters p).

(** What [NewHTTPPool] leaves: the process, and the patterns that have a
    handler in [http.DefaultServeMux]. *)
Inductive started : Type :=
| StartPanics (msg : string) (st : Process) (mux : gset string)
| StartReturns (p : HTTPPool) (st : Process) (mux : gset string).

(** [NewHTTPPool].  [http.Handle] panics when the pattern has a handler
    already, and registers the handler otherwise. *)
Definition NewHTTPPool (self_ : string) (st : Process) (mux : gset string)
  : started :=
  match NewHTTPPoolOpts self_ None st with
  | NewPanics msg => StartPanics msg st mux
  | NewReturns p st' =>
      if decide (BasePath (opts p) ∈ mux)
      then StartPanics ("http: multiple registrations for " +:+
                        BasePath (opts p)) st' mux
      else StartReturns p st' ({[BasePath (opts p)]} ∪ mux)
  end.

(** The pools a program can hold: made by [NewHTTPPoolOpts], then [Set] any
    number of times. *)
Inductive built : HTTPPool → Prop :=
| built_new self_ o st p st' :
    NewHTTPPoolOpts self_ o st = NewReturns p st' → built p
| built_Set p peers_ : built p → built (Set_ p peers_).

(** net/http between the two ends: the response that reaches the client
    carries what the handler wrote, with status 200 when the handler
    returned without writing a status; a handler that panicked sends no
    response. *)
Definition delivers (res : Response) (o : served) : Prop :=
  match o with
  | Served w _ =>
      StatusCode res = default StatusOK (status w) ∧
      data (Body res) = written w ∧ readErr (Body res) = None
  | Panicked _ _ _ => False
  end.

(** The expiry [ServeHTTP] puts on the wire for a view that expires at
    [e]: 0 for none. *)
Definition expire_of (e : singleflight.Time) : Z :=
  if singleflight.IsZero e then 0 else UnixNano e.

End Http.

(** ** A small deployment, to run the functions on

    The ring gives a key to the peer at the position of the key's length;
    the only group is "colors", which has the value "red" for every key;
    a body decodes unless it is "garbage". *)

#[export] Instance demo_ring : HashRing (list string) unit := {|
  ring_New _ _ := [];
  ring_Add r ps := (r ++ ps)%list;
  ring_Get r key := nth (String.length key mod length r)%nat r "";
  ring_IsEmpty r := bool_decide (r = [])
|}.

#[export] Instance demo_groups : Groups unit string string := {|
  GetGroup name := if decide (name = "colors") then Some name else None;
  group_Get _ _ _ := (None, "red");
  sink_bytes b := b;
  sink_view _ := inr 0;
  UnixNano t := t
|}.

#[export] Instance demo_wire : Wire unit string := {|
  Quote s := s;
  PathEscape s := s;
  NewRequestWithContext _ _ u := inr u;
  DefaultTransport _ := inl (errorString "connection refused");
  Marshal r := inr (Value r);
  Unmarshal b :=
    if decide (b = "garbage") then inl (errorString "unexpected EOF")
    else inr (GetResp b None)
|}.

(** The pool of 10.0.0.1, as [NewHTTPPoolOpts] makes it without options,
    after [Set] with two peers. *)
Definition demo_pool : @HTTPPool unit (list string) unit string :=
  Set_ (Pool "http://10.0.0.1:8008"
             (Options defaultBasePath defaultReplicas None None None
                      (Some DefaultServerErrorHandler))
             (ring_New defaultReplicas None) ∅)
       ["http://10.0.0.1:8008"; "http://10.0.0.2:8008"].

Definition demo_http_request (method path : string) : @Request unit :=
  Req method path tt.

(** What [demo_pool] was before its [Set]. *)
Definition demo_seed : @HTTPPool unit (list string) unit string :=
  Pool "http://10.0.0.1:8008"
       (Options defaultBasePath defaultReplicas None None None
                (Some DefaultServerErrorHandler))
       (ring_New defaultReplicas None) ∅.

Definition demo_peers : list string :=
  ["http://10.0.0.1:8008"; "http://10.0.0.2:8008"].

Definition demo_request : GetRequest := GetReq (Some "colors") (Some "sky").

(** Getters for a peer that cannot be reached (the default transport of the
    deployment refuses), for one that answers 500, and for one that answers
    200 with a body that does not decode. *)
Definition refused : @httpGetter unit string :=
  Getter None "http://10.0.0.2:8008/_groupcache/".

Definition failing : @httpGetter unit string :=
  Getter (Some (λ _ _, inr (Resp 500 "500 Internal Server Error"
                                 (Reader "boom" None false))))
         "http://10.0.0.2:8008/_groupcache/".

Definition garbling : @httpGetter unit string :=
  Getter (Some (λ _ _, inr (Resp 200 "200 OK" (Reader "garbage" None false))))
         "http://10.0.0.2:8008/_groupcache/".

(** Two calls of [Get] one after the other in a process that has made no
    buffer yet: the first to the peer that answers 500, the second to the
    peer whose body does not decode, with the pool handing out the buffer
    that the first call put back. *)
Definition first_Get : (error + GetResponse) * Buffers :=
  Get failing tt demo_request no_buffers None.

Definition second_Get : (error + GetResponse) * Buffers :=
  Get garbling tt demo_request first_Get.2 (Some 0%nat).

(** A peer that answers 502 with no body at all ([http.NoBody]). *)
Definition silent : @httpGetter unit string :=
  Getter (Some (λ _ _, inr (Resp 502 "502 Bad Gateway" (Reader "" None true))))
         "http://10.0.0.2:8008/_groupcache/".

(** A peer that answers 502 and whose body breaks off after two bytes. *)
Definition breaking : @httpGetter unit string :=
  Getter (Some (λ _ _, inr (Resp 502 "502 Bad Gateway"
                                 (Reader "bo" (Some (errorString "unexpected EOF"))
                                         false))))
         "http://10.0.0.2:8008/_groupcache/".

Definition fresh_writer : ResponseWriter := Writer ∅ None "".

(** The same deployment with the two ends joined: a request is a method
    and a URL, and the transport of [joined] hands the request to the
    handler of the pool of 10.0.0.2 and carries back what the handler
    wrote. *)
#[export] Instance joined_wire : Wire unit (string * string) := {|
  Quote s := s;
  PathEscape s := s;
  NewRequestWithContext _ method u := inr (method, u);
  DefaultTransport _ := inl (errorString "connection refused");
  Marshal r := inr (Value r);
  Unmarshal b := inr (GetResp b (Some 0))
|}.

Definition joined_pool : @HTTPPool unit (list string) unit (string * string) :=
  Set_ (Pool "http://10.0.0.2:8008"
             (Options defaultBasePath defaultReplicas None None None
                      (Some DefaultServerErrorHandler))
             (ring_New defaultReplicas None) ∅)
       ["http://10.0.0.1:8008"; "http://10.0.0.2:8008"].

Definition joined_serve (req : string * string) : served :=
  ServeHTTP joined_pool fresh_writer
    (Req req.1 (str_drop (String.length "http://10.0.0.2:8008") req.2) tt).

Definition joined_response (req : string * string) : Response :=
  match joined_serve req with
  | Served w _ =>
      Resp (default StatusOK (status w)) "" (Reader (written w) None false)
  | Panicked _ _ _ => Resp 0 "" (Reader "" (Some (errorString "EOF")) false)
  end.

Definition joined : @httpGetter unit (string * string) :=
  Getter (Some (λ _ req, inr (joined_response req)))
         "http://10.0.0.2:8008/_groupcache/".

Definition unknown_request : GetRequest := GetReq (Some "shapes") (Some "sky").

End groupcache.

(** * Properties of package singleflight *)

Module singleflight_spec.
Import singleflight.

Section Flight.

Context {V : Type}.
Implicit Types (s : @state V) (p q : @pc V) (a : @action V).
Implicit Types (fn r : @outcome V) (cl : @call V) (ths : list (@pc V)).
Implicit Types (ex : list (nat * loc * @outcome V)) (h : loc → @call V).
Implicit Types (m : gmap string loc) (gm : option (gmap string loc)).

(** ** The invariant holds in every reachable state

    A step changes the program counter of one goroutine and, with it, the
    map, one call or the log.  [pc_ok_frame] says what the other goroutines
    need of a step to keep what the invariant says of them. *)

Lemma leaves_store fn cl : leaves fn (store fn cl) = fn.
Proof. by destruct fn. Qed.

Lemma lookup_set_thread ths t q t' p' :
  <[t := q]> ths !! t' = Some p' →
  (t' = t ∧ p' = q) ∨ (t' ≠ t ∧ ths !! t' = Some p').
Proof.
  intros H. apply list_lookup_insert_Some in H. naive_solver.
Qed.

Lemma pc_ok_frame m h n ex m' h' n' ex' t p :
  pc_ok m h n ex t p →
  (n ≤ n')%nat →
  (∀ k c, in_flight p k c → m !! k = Some c → m' !! k = Some c) →
  (∀ c, reads p c → h' c = h c) →
  (∀ c r, (t, c, r) ∈ ex' ↔ (t, c, r) ∈ ex) →
  (∀ c t' r, leads p c → (t', c, r) ∈ ex' → (t', c, r) ∈ ex) →
  pc_ok m' h' n' ex' t p.
Proof.
  intros Hok Hn Hm Hh Hex Hex'.
  destruct p as [k fn|k c|k c fn|k c r|k c r|[k c|k c] r];
    unfold pc_ok, ran, no_exec_by in *; simpl in *;
    try rewrite (Hh c eq_refl); naive_solver eauto with lia.
Qed.

Lemma thread_update_one_leader ths t p q :
  (∀ t1 t2 p1 p2 c, ths !! t1 = Some p1 → ths !! t2 = Some p2 →
     leads p1 c → leads p2 c → t1 = t2) →
  ths !! t = Some p →
  (∀ c, leads q c → leads p c) →
  ∀ t1 t2 p1 p2 c, <[t := q]> ths !! t1 = Some p1 →
    <[t := q]> ths !! t2 = Some p2 → leads p1 c → leads p2 c → t1 = t2.
Proof.
  intros H Ht Hq t1 t2 p1 p2 c H1 H2 L1 L2.
  apply lookup_set_thread in H1 as [[-> ->]|[? H1]];
    apply lookup_set_thread in H2 as [[-> ->]|[? H2]]; eauto.
Qed.

Lemma thread_update_exists ths t p q (P : pc → Prop) :
  ths !! t = Some p →
  (P p → P q) →
  (∃ t0 p0, ths !! t0 = Some p0 ∧ P p0) →
  ∃ t0 p0, <[t := q]> ths !! t0 = Some p0 ∧ P p0.
Proof.
  intros Ht Hq (t0 & p0 & H0 & HP).
  destruct (decide (t0 = t)) as [->|Hne].
  - exists t, q. split.
    + apply list_lookup_insert_eq. by eapply lookup_lt_Some.
    + apply Hq. congruence.
  - exists t0, p0. split; [|done]. by rewrite list_lookup_insert_ne.
Qed.

Lemma thread_update_is_Some ths t q t' :
  is_Some (ths !! t') → is_Some (<[t := q]> ths !! t').
Proof.
  rewrite !lookup_lt_is_Some. by rewrite length_insert.
Qed.

Lemma leads_lt m h n ex t p c : pc_ok m h n ex t p → leads p c → (c < n)%nat.
Proof.
  destruct p as [| | | | |[]]; simpl; intros Hok Hl; try done; subst; tauto.
Qed.

Lemma execs_leads m h n ex t p c r :
  pc_ok m h n ex t p → (t, c, r) ∈ ex → leads p c.
Proof.
  destruct p as [| | | | |[]]; simpl; unfold ran, no_exec_by;
    intros Hok Hin; destruct_and?;
    first [ match goal with Hu : ∀ _ _, _ ∈ ex → _ |- _ =>
              by destruct (Hu _ _ Hin) end
          | match goal with Hu : ∀ _ _, (t, _, _) ∉ ex |- _ =>
              by destruct (Hu _ _ Hin) end ].
Qed.

Lemma reads_lt m h n ex t p c : pc_ok m h n ex t p → reads p c → (c < n)%nat.
Proof.
  destruct p as [| | | | |[]]; simpl; intros Hok Hl; try done; subst; tauto.
Qed.

Lemma in_flight_leads p k c : in_flight p k c → leads p c.
Proof. destruct p; simpl; tauto. Qed.

Lemma in_flight_lookup m h n ex t p k c :
  pc_ok m h n ex t p → in_flight p k c → m !! k = Some c.
Proof.
  destruct p; simpl; intros Hok Hl; try done; destruct Hl; subst; tauto.
Qed.

(** Nobody else reads the call of a leader whose signal has not fired. *)
Lemma reads_other m h n ex ths t p t' p' c c' :
  (∀ t1 t2 p1 p2 c, ths !! t1 = Some p1 → ths !! t2 = Some p2 →
     leads p1 c → leads p2 c → t1 = t2) →
  ths !! t = Some p → ths !! t' = Some p' → t' ≠ t →
  leads p c → wg (h c) = 1%nat →
  pc_ok m h n ex t' p' → reads p' c' → c' ≠ c.
Proof.
  intros Hone Ht Ht' Hne Hl Hwg Hok Hr ->.
  destruct p' as [| | | | |[]]; simpl in *; try done;
    try (apply Hne; eapply Hone; eauto; done).
  subst. destruct Hok as (_ & Hz & _). congruence.
Qed.

Lemma default_delete gm k :
  default ∅ (delete k <$> gm) = delete k (default ∅ gm).
Proof. destruct gm; simpl; [done|]. by rewrite delete_empty. Qed.

Lemma init_inv : inv (@init V).
Proof.
  split; simpl; try done.
  - intros c Hc. lia.
  - intros t c r Hin. by apply elem_of_nil in Hin.
  - apply NoDup_nil_2.
Qed.

(** Every step keeps the invariant. *)
Lemma step_inv a s s' : inv s → step a s = Some s' → inv s'.
Proof.
  intros I Hs. destruct s as [mu gm h n ths ex].
  destruct I as [Ipc Ione Ihas Imap Iex Ind]; unfold the_map in *; simpl in *.
  destruct a as [key fn | t now | |]; simpl in Hs;
    [|idtac|destruct mu; simplify_eq; by split..].
  { (* a new goroutine enters Do *)
    simplify_eq. split; unfold the_map; simpl; try done.
    - intros t p Ht. apply lookup_app_Some in Ht as [Ht|[Hlen Ht]]; [eauto|].
      destruct (t - length ths)%nat eqn:E; simplify_eq/=.
      intros c r Hin. apply Iex, lookup_lt_is_Some in Hin. lia.
    - intros t1 t2 p1 p2 c H1 H2 L1 L2.
      apply lookup_app_Some in H1 as [H1|[? H1]];
        apply lookup_app_Some in H2 as [H2|[? H2]]; eauto;
        repeat match goal with
        | H : [_] !! ?i = Some _ |- _ => destruct i; simplify_eq/=
        end; done.
    - intros c Hc. destruct (Ihas c Hc) as (t & p & Ht & Hl).
      exists t, p. split; [|done]. by apply lookup_app_l_Some.
    - intros k c Hk. destruct (Imap k c Hk) as (t & p & Ht & Hl).
      exists t, p. split; [|done]. by apply lookup_app_l_Some.
    - intros t c r Hin. apply Iex in Hin.
      apply lookup_lt_is_Some in Hin. apply lookup_lt_is_Some.
      rewrite length_app. lia. }
  destruct (ths !! t) as [p|] eqn:Ht; simpl in Hs; [|done].
  pose proof (Ipc t p Ht) as Hp.
  destruct p as [key fn|key c|key c fn|key c r|key c r|who r];
    unfold the_map in Hs; simpl in Hs, Hp.
  - (* lines 47-62 *)
    destruct mu; [done|].
    destruct (default ∅ gm !! key) as [c|] eqn:Hk; simplify_eq.
    + (* a call for key exists: follow it *)
      destruct (Imap key c Hk) as (t0 & p0 & Ht0 & Hf0).
      assert (c < n)%nat as Hc.
      { eapply leads_lt; [by eapply Ipc|]. by eapply in_flight_leads. }
      split; unfold the_map; simpl; try done.
      * intros t' p' Ht'. apply lookup_set_thread in Ht' as [[-> ->]|[? Ht']];
          [done|eauto].
      * eapply thread_update_one_leader; eauto.
      * intros c' Hc'. eapply thread_update_exists; eauto.
      * intros k' c' Hk'. eapply thread_update_exists; eauto.
      * intros t' c' r' Hin. eapply thread_update_is_Some; eauto.
    + (* no call for key: insert one and lead *)
      split; unfold the_map; simpl; try done.
      * intros t' p' Ht'. apply lookup_set_thread in Ht' as [[-> ->]|[? Ht']].
        -- simpl. rewrite lookup_insert_eq, fn_lookup_insert. simpl.
           repeat split; try done; [lia|].
           intros t' r Hin. destruct (Iex _ _ _ Hin) as [p' Ht'].
           pose proof (Ipc _ _ Ht') as Hp'.
           pose proof (leads_lt _ _ _ _ _ _ _ Hp' (execs_leads _ _ _ _ _ _ _ _ Hp' Hin)).
           lia.
        -- eapply pc_ok_frame; [by eapply Ipc|lia| | |done|done].
           ++ intros k c Hf Hm. rewrite lookup_insert_ne; [done|congruence].
           ++ intros c Hr. rewrite fn_lookup_insert_ne; [done|].
              pose proof (reads_lt _ _ _ _ _ _ _ (Ipc _ _ Ht') Hr). lia.
      * intros t1 t2 p1 p2 c H1 H2 L1 L2.
        apply lookup_set_thread in H1 as [[-> ->]|[? H1]];
          apply lookup_set_thread in H2 as [[-> ->]|[? H2]]; eauto;
          simpl in *; subst;
          match goal with
          | H : ths !! ?i = Some ?q, L : leads ?q _ |- _ =>
              pose proof (leads_lt _ _ _ _ _ _ _ (Ipc _ _ H) L); lia
          end.
      * intros c Hc. destruct (decide (c = n)) as [->|Hne].
        -- exists t, (AtCall key n fn). split; [|done].
           apply list_lookup_insert_eq. by eapply lookup_lt_Some.
        -- eapply (thread_update_exists _ _ _ _ (λ p, leads p c));
             [done|simpl; tauto|apply Ihas; lia].
      * intros k c Hk'. apply lookup_insert_Some in Hk' as [[-> <-]|[? Hk']].
        -- eexists t, _. split.
           { apply list_lookup_insert_eq. by eapply lookup_lt_Some. }
           done.
        -- eapply (thread_update_exists _ _ _ _ (λ p, in_flight p k c));
             [done|simpl; tauto|eauto].
      * intros t' c' r' Hin. eapply thread_update_is_Some; eauto.
  - (* lines 53-54 *)
    case_decide as Hwg; simplify_eq.
    split; unfold the_map; simpl; try done.
    + intros t' p' Ht'. apply lookup_set_thread in Ht' as [[-> ->]|[? Ht']];
        [simpl; tauto|eauto].
    + eapply thread_update_one_leader; eauto.
    + intros c' Hc'. eapply thread_update_exists; eauto.
    + intros k' c' Hk'. eapply thread_update_exists; eauto.
    + intros t' c' r' Hin. eapply thread_update_is_Some; eauto.
  - (* lines 71-72 *)
    rewrite leaves_store in Hs. simplify_eq.
    destruct Hp as (Hc & Hm & Hwg & Hval & Herr & Hno & Hnot).
    split; unfold the_map; simpl; try done.
    + intros t' p' Ht'. apply lookup_set_thread in Ht' as [[-> ->]|[? Ht']].
      * simpl. unfold ran. rewrite fn_lookup_insert.
        split_and!; [done|done|by destruct fn|by left| |by destruct fn].
        intros c' r' Hin. apply elem_of_cons in Hin as [?|Hin];
          [by simplify_eq|by destruct (Hnot _ _ Hin)].
      * assert (∀ c', reads p' c' → c' ≠ c) as Hrd.
        { intros c' Hr. eapply (reads_other _ _ _ _ _ t _ t'); eauto. done. }
        eapply pc_ok_frame; [by eapply Ipc|lia|done| | |].
        -- intros c' Hr. rewrite fn_lookup_insert_ne; [done|].
           intros <-. by eapply Hrd.
        -- intros c' r. rewrite elem_of_cons. naive_solver.
        -- intros c' t'' r Hl Hin. apply elem_of_cons in Hin as [?|?]; [|done].
           simplify_eq. exfalso. eapply Hrd; [|done].
           destruct p' as [| | | | |[]]; done.
    + eapply thread_update_one_leader; eauto.
    + intros c' Hc'. eapply thread_update_exists; eauto.
    + intros k' c' Hk'. eapply thread_update_exists; eauto.
    + intros t' c' r' Hin. apply elem_of_cons in Hin as [?|Hin].
      * simplify_eq. apply thread_update_is_Some. eauto.
      * eapply thread_update_is_Some; eauto.
    + apply NoDup_cons_2; [apply Hno|done].
  - (* line 65 *)
    simplify_eq.
    destruct Hp as (Hc & Hm & Hwg & Hin & Huniq & Hst).
    split; unfold the_map; simpl; try done.
    + intros t' p' Ht'. apply lookup_set_thread in Ht' as [[-> ->]|[? Ht']].
      * simpl. unfold ran. rewrite fn_lookup_insert. simpl.
        split_and!; [done|done|lia|done|done|by destruct r].
      * eapply pc_ok_frame; [by eapply Ipc|lia|done| |done|done].
        intros c' Hr. rewrite fn_lookup_insert_ne; [done|].
        intros <-. eapply (reads_other _ _ _ _ _ t _ t'); eauto. done.
    + eapply thread_update_one_leader; eauto.
    + intros c' Hc'. eapply thread_update_exists; eauto.
    + intros k' c' Hk'. eapply thread_update_exists; eauto.
    + intros t' c' r' Hin'. eapply thread_update_is_Some; eauto.
  - (* lines 66-68 *)
    destruct mu; [done|]. simplify_eq.
    destruct Hp as (Hc & Hm & Hwg & Hran).
    split; unfold the_map; simpl; rewrite ?default_delete; try done.
    + intros t' p' Ht'. apply lookup_set_thread in Ht' as [[-> ->]|[? Ht']].
      * done.
      * eapply pc_ok_frame; [by eapply Ipc|lia| |done|done|done].
        intros k c' Hf Hk. rewrite lookup_delete_ne; [done|].
        intros <-. simplify_eq.
        assert (t' = t); [|done].
        eapply Ione; eauto using in_flight_leads. done.
    + eapply thread_update_one_leader; eauto.
    + intros c' Hc'. eapply thread_update_exists; eauto.
    + intros k' c' Hk'. apply lookup_delete_Some in Hk' as [Hne Hk'].
      destruct (Imap _ _ Hk') as (t0 & p0 & Ht0 & Hf0).
      exists t0, p0. split; [|done].
      rewrite list_lookup_insert_ne; [done|].
      intros <-. simplify_eq. simpl in Hf0. tauto.
    + intros t' c' r' Hin'. eapply thread_update_is_Some; eauto.
  - done.
Qed.

Lemma run_inv acts s s' : inv s → run acts s = Some s' → inv s'.
Proof.
  revert s. induction acts as [|a acts IH]; intros s I Hrun; simpl in Hrun.
  - by simplify_eq.
  - destruct (step a s) as [s1|] eqn:Hstep; simpl in Hrun; [|done].
    eapply IH; [|done]. by eapply step_inv.
Qed.

Lemma reachable_inv s : reachable s → inv s.
Proof. intros [acts Hrun]. eapply run_inv; [apply init_inv|done]. Qed.

(** The leader of a call whose signal has fired ran its loader, once, and the
    call holds what the loader did. *)
Lemma fired_call_ran s c :
  inv s → (c < next s)%nat → wg (heap s c) = 0%nat →
  ∃ t' p' fn,
    threads s !! t' = Some p' ∧ leads p' c ∧
    (t', c, fn) ∈ execs s ∧ stored fn (heap s c) ∧
    ∀ t'' fn', (t'', c, fn') ∈ execs s → t'' = t' ∧ fn' = fn.
Proof.
  intros I Hc Hwg.
  destruct (inv_has_leader _ I c Hc) as (t' & p' & Ht' & Hl).
  pose proof (inv_pc _ I _ _ Ht') as Hp'.
  assert (∃ fn, ran (execs s) t' c fn (heap s c)) as [fn (Hin & Huniq & Hst)].
  { destruct p' as [| | | | |[]]; simpl in *; try done; subst;
      destruct_and?; try congruence; eauto. }
  exists t', p', fn. split_and!; try done.
  intros t'' fn' Hin'.
  destruct (inv_execs_thread _ I _ _ _ Hin') as [p'' Ht''].
  pose proof (execs_leads _ _ _ _ _ _ _ _ (inv_pc _ I _ _ Ht'') Hin') as Hl''.
  assert (t'' = t') as -> by (eapply (inv_one_leader _ I); eauto).
  split; [done|]. by destruct (Huniq _ _ Hin').
Qed.

(** ** Duplicate suppression *)

(** C1. In every state the group can reach: the entries of the map are the
    calls whose leader is between insertion and removal, one goroutine per
    key; a [Do(key, fn)] that finds a call for [key] (it looks when no
    [Lock(fn)] holds the mutex) goes to wait on it, without a new call and
    without running [fn]; it waits as long as the call's signal has not
    fired; and when it has returned, it has not run its loader, the loader
    of the call was run once, by another goroutine, and what that loader
    returned is what the follower returned. *)
Theorem Do_suppresses_duplicates s :
  reachable s →
  (∀ key c, the_map s !! key = Some c ↔
            ∃ t p, threads s !! t = Some p ∧ in_flight p key c) ∧
  (∀ t1 t2 p1 p2 key c1 c2,
     threads s !! t1 = Some p1 → threads s !! t2 = Some p2 →
     in_flight p1 key c1 → in_flight p2 key c2 → t1 = t2 ∧ c1 = c2) ∧
  (∀ t key fn c now,
     threads s !! t = Some (AtEntry key fn) → the_map s !! key = Some c →
     g_mu s = false →
     ∃ s', step (Sched t now) s = Some s' ∧
           threads s' !! t = Some (AtWait key c) ∧
           the_map s' = the_map s ∧ next s' = next s ∧
           heap s' = heap s ∧ execs s' = execs s) ∧
  (∀ t key c now,
     threads s !! t = Some (AtWait key c) → wg (heap s c) ≠ 0%nat →
     step (Sched t now) s = None) ∧
  (∀ t key c r,
     threads s !! t = Some (Exited (Follower key c) r) →
     no_exec_by (execs s) t ∧
     ∃ t' fn,
       t' ≠ t ∧ (t', c, fn) ∈ execs s ∧
       (∀ t'' fn', (t'', c, fn') ∈ execs s → t'' = t' ∧ fn' = fn) ∧
       (∀ v e, fn = Returns v e → r = Returns v e)).
Proof.
  intros Hr. pose proof (reachable_inv _ Hr) as I. split_and!.
  - intros key c. split.
    + apply (inv_map_leader _ I).
    + intros (t & p & Ht & Hf).
      eapply in_flight_lookup; [by eapply (inv_pc _ I)|done].
  - intros t1 t2 p1 p2 key c1 c2 H1 H2 F1 F2.
    pose proof (in_flight_lookup _ _ _ _ _ _ _ _ (inv_pc _ I _ _ H1) F1) as M1.
    pose proof (in_flight_lookup _ _ _ _ _ _ _ _ (inv_pc _ I _ _ H2) F2) as M2.
    assert (c1 = c2) as -> by congruence. split; [|done].
    eapply (inv_one_leader _ I); eauto using in_flight_leads.
  - intros t key fn c now Ht Hk Hmu. simpl. rewrite Ht. simpl.
    rewrite Hmu, Hk.
    eexists. split; [done|]. simpl. split_and!; try done.
    apply list_lookup_insert_eq. by eapply lookup_lt_Some.
  - intros t key c now Ht Hwg. simpl. rewrite Ht. simpl.
    by case_decide.
  - intros t key c r Ht.
    destruct (inv_pc _ I _ _ Ht) as (Hc & Hwg & -> & Hno). split; [done|].
    destruct (fired_call_ran s c I Hc Hwg)
      as (t' & p' & fn & Ht' & Hl & Hin & Hst & Huniq).
    exists t', fn. split_and!; try done.
    + intros ->. by destruct (Hno _ _ Hin).
    + intros v e ->. simpl in Hst. by destruct Hst as [-> ->].
Qed.

(** ** Cleanup on every exit path *)

(** C2. In every state the group can reach: a leader is blocked by nothing
    but a [Lock(fn)] that holds the mutex when it comes to remove its entry;
    its call is seeded with the leader-panicked error until the loader has
    returned; whatever the loader does, return or panic, the next steps of
    the leader fire the signal and then remove the key's entry, and what
    leaves [Do] is what the call's one loader run did, a panic included; a
    follower has returned only after the signal fired; a follower of a
    call whose loader panicked returns nil and the seeded error; and it
    does return: once the signal of such a call has fired, the step of a
    follower that waits on it is to return nil and the seeded error,
    whether a [Lock(fn)] holds the mutex or not, and when the leader has
    panicked and not yet called [Done], the follower waits, and the
    leader's [Done] and then the follower's step bring the follower out of
    [Do] with nil and the seeded error. *)
Theorem Do_cleans_up_on_every_exit s :
  reachable s →
  (∀ t key c fn now,
     threads s !! t = Some (AtCall key c fn) →
     val (heap s c) = None ∧ err (heap s c) = Some leaderPanicked ∧
     ∃ s', step (Sched t now) s = Some s' ∧
           threads s' !! t = Some (AtDone key c fn) ∧
           (t, c, fn) ∈ execs s' ∧ stored fn (heap s' c)) ∧
  (∀ t key c r now,
     threads s !! t = Some (AtDone key c r) →
     ∃ s', step (Sched t now) s = Some s' ∧
           threads s' !! t = Some (AtDelete key c r) ∧
           wg (heap s' c) = 0%nat) ∧
  (∀ t key c r now,
     threads s !! t = Some (AtDelete key c r) → g_mu s = false →
     ∃ s', step (Sched t now) s = Some s' ∧
           threads s' !! t = Some (Exited (Leader key c) r) ∧
           wg (heap s' c) = 0%nat ∧ the_map s' !! key = None) ∧
  (∀ t key c r,
     threads s !! t = Some (Exited (Leader key c) r) →
     wg (heap s c) = 0%nat ∧ (t, c, r) ∈ execs s ∧
     ∀ (t' : nat) fn, (t', c, fn) ∈ execs s → t' = t ∧ fn = r) ∧
  (∀ t key c r,
     threads s !! t = Some (Exited (Follower key c) r) →
     wg (heap s c) = 0%nat) ∧
  (∀ t key c r (t' : nat) (x : V),
     threads s !! t = Some (Exited (Follower key c) r) →
     (t', c, Panics x) ∈ execs s →
     r = Returns None (Some leaderPanicked)) ∧
  (∀ t key c now (t' : nat) (x : V),
     threads s !! t = Some (AtWait key c) →
     (t', c, Panics x) ∈ execs s →
     wg (heap s c) = 0%nat →
     ∃ s', step (Sched t now) s = Some s' ∧
           threads s' !! t =
             Some (Exited (Follower key c)
                          (Returns None (Some leaderPanicked)))) ∧
  (∀ t t0 key c (x : V) now now',
     threads s !! t = Some (AtWait key c) →
     threads s !! t0 = Some (AtDone key c (Panics x)) →
     step (Sched t now) s = None ∧
     ∃ s', run [Sched t0 now; Sched t now'] s = Some s' ∧
           threads s' !! t =
             Some (Exited (Follower key c)
                          (Returns None (Some leaderPanicked))) ∧
           threads s' !! t0 = Some (AtDelete key c (Panics x))).
Proof.
  intros Hr. pose proof (reachable_inv _ Hr) as I. split_and!.
  - intros t key c fn now Ht.
    destruct (inv_pc _ I _ _ Ht) as (Hc & Hm & Hwg & Hval & Herr & _).
    split_and!; try done. simpl. rewrite Ht. simpl. rewrite leaves_store.
    eexists. split; [done|]. simpl. split_and!.
    + apply list_lookup_insert_eq. by eapply lookup_lt_Some.
    + by left.
    + rewrite fn_lookup_insert. by destruct fn.
  - intros t key c r now Ht.
    destruct (inv_pc _ I _ _ Ht) as (Hc & Hm & Hwg & _).
    simpl. rewrite Ht. simpl. eexists. split; [done|]. simpl. split.
    + apply list_lookup_insert_eq. by eapply lookup_lt_Some.
    + rewrite fn_lookup_insert. simpl. lia.
  - intros t key c r now Ht Hmu.
    destruct (inv_pc _ I _ _ Ht) as (Hc & Hm & Hwg & _).
    simpl. rewrite Ht. simpl. rewrite Hmu. eexists. split; [done|].
    unfold the_map. simpl. split_and!; try done.
    + apply list_lookup_insert_eq. by eapply lookup_lt_Some.
    + rewrite default_delete. apply lookup_delete_eq.
  - intros t key c r Ht.
    destruct (inv_pc _ I _ _ Ht) as (Hc & Hwg & Hin & _).
    split_and!; [done|done|]. intros t' fn Hin'.
    destruct (fired_call_ran s c I Hc Hwg)
      as (t0 & p0 & fn0 & _ & _ & _ & _ & Huniq).
    destruct (Huniq _ _ Hin) as [-> ->]. by apply Huniq.
  - intros t key c r Ht.
    by destruct (inv_pc _ I _ _ Ht) as (Hc & Hwg & _).
  - intros t key c r t' x Ht Hin.
    destruct (inv_pc _ I _ _ Ht) as (Hc & Hwg & -> & Hno).
    destruct (fired_call_ran s c I Hc Hwg)
      as (t0 & p0 & fn & Ht0 & Hl & Hin0 & Hst & Huniq).
    destruct (Huniq _ _ Hin) as [_ <-]. simpl in Hst.
    by destruct Hst as [-> ->].
  - intros t key c now t' x Ht Hin Hwg.
    destruct (inv_pc _ I _ _ Ht) as (Hc & _).
    destruct (fired_call_ran s c I Hc Hwg)
      as (t0 & p0 & fn & Ht0 & Hl & Hin0 & Hst & Huniq).
    destruct (Huniq _ _ Hin) as [_ <-]. simpl in Hst.
    destruct Hst as [Hval Herr].
    simpl. rewrite Ht. simpl. rewrite decide_True by done.
    eexists. split; [done|]. simpl. rewrite Hval, Herr.
    apply list_lookup_insert_eq. by eapply lookup_lt_Some.
  - intros t t0 key c x now now' Ht Ht0.
    destruct (inv_pc _ I _ _ Ht0) as (Hc & Hm & Hwg & _ & _ & Hst).
    simpl in Hst. destruct Hst as [Hval Herr].
    assert (t ≠ t0) as Hne by (intros ->; congruence).
    split.
    { simpl. rewrite Ht. simpl. rewrite decide_False by lia. done. }
    simpl. rewrite Ht0. simpl.
    rewrite list_lookup_insert_ne by done. rewrite Ht. simpl.
    rewrite fn_lookup_insert. simpl. rewrite Hwg. simpl.
    eexists. split; [done|]. simpl. rewrite Hval, Herr. split.
    + apply list_lookup_insert_eq. rewrite length_insert.
      by eapply lookup_lt_Some.
    + rewrite list_lookup_insert_ne by done.
      apply list_lookup_insert_eq. by eapply lookup_lt_Some.
Qed.

(** ** Count and LongestRunningStartTime *)

Lemma oldest_fold h (entries : list (string * loc)) (acc : Time) :
  acc ≠ zeroTime →
  Forall (λ e, created (h e.2) ≠ zeroTime) entries →
  fold_left (oldest_step h) entries acc ≠ zeroTime ∧
  fold_left (oldest_step h) entries acc ≤ acc ∧
  (∀ e, e ∈ entries → fold_left (oldest_step h) entries acc ≤ created (h e.2)) ∧
  (fold_left (oldest_step h) entries acc = acc ∨
   ∃ e, e ∈ entries ∧ fold_left (oldest_step h) entries acc = created (h e.2)).
Proof.
  revert acc. induction entries as [|e l IH]; intros acc Hacc Hall; simpl.
  - split_and!; [done|lia| |by left]. intros e He. by apply elem_of_nil in He.
  - apply Forall_cons_1 in Hall as [He Hl].
    assert (oldest_step h acc e ≠ zeroTime ∧ oldest_step h acc e ≤ acc ∧
            oldest_step h acc e ≤ created (h e.2) ∧
            (oldest_step h acc e = acc ∨ oldest_step h acc e = created (h e.2)))
      as (Hnz & Hle & Hle' & Hor).
    { unfold oldest_step, IsZero, Before, zeroTime in *.
      destruct (acc =? 0) eqn:E1; [lia|]. simpl.
      destruct (created (h e.2) <? acc) eqn:E2; lia. }
    destruct (IH _ Hnz Hl) as (IH1 & IH2 & IH3 & IH4).
    split_and!; [done|lia| |].
    + intros e' He'. apply elem_of_cons in He' as [->|He']; [lia|eauto].
    + destruct IH4 as [IH4|(e' & He' & IH4)].
      * destruct Hor as [Hor|Hor]; [left; congruence|].
        right. exists e. split; [by left|congruence].
      * right. exists e'. split; [by right|done].
Qed.

Lemma step_created a s s' :
  step a s = Some s' →
  match a with Sched _ now => now ≠ zeroTime | _ => True end →
  (∀ c, (c < next s)%nat → created (heap s c) ≠ zeroTime) →
  ∀ c, (c < next s')%nat → created (heap s' c) ≠ zeroTime.
Proof.
  intros Hs Hnow Hall. destruct a as [key fn|t now| |]; simpl in Hs;
    [by simplify_eq|idtac|destruct (g_mu s); by simplify_eq..].
  destruct (threads s !! t) as [p|]; simpl in Hs; [|done].
  destruct p as [key fn|key c|key c fn|key c r|key c r|who r]; simpl in Hs.
  - destruct (g_mu s); [done|].
    destruct (the_map s !! key); simplify_eq; simpl; [done|].
    intros c Hc. destruct (decide (c = next s)) as [->|Hne].
    + by rewrite fn_lookup_insert.
    + rewrite fn_lookup_insert_ne by done. apply Hall. lia.
  - case_decide; by simplify_eq.
  - simplify_eq. simpl. intros c' Hc'.
    destruct (decide (c' = c)) as [->|Hne].
    + rewrite fn_lookup_insert. destruct fn; simpl; by apply Hall.
    + rewrite fn_lookup_insert_ne by done. by apply Hall.
  - simplify_eq. simpl. intros c' Hc'.
    destruct (decide (c' = c)) as [->|Hne].
    + rewrite fn_lookup_insert. simpl. by apply Hall.
    + rewrite fn_lookup_insert_ne by done. by apply Hall.
  - destruct (g_mu s); by simplify_eq.
  - done.
Qed.

Lemma run_created acts s s' :
  run acts s = Some s' → clock_after_zero acts →
  (∀ c, (c < next s)%nat → created (heap s c) ≠ zeroTime) →
  ∀ c, (c < next s')%nat → created (heap s' c) ≠ zeroTime.
Proof.
  revert s. induction acts as [|a acts IH]; intros s Hrun Hclock Hall;
    simpl in Hrun.
  - by simplify_eq.
  - destruct (step a s) as [s1|] eqn:Hstep; simpl in Hrun; [|done].
    apply Forall_cons_1 in Hclock as [Ha Hclock].
    eapply IH; [done|done|]. by eapply step_created.
Qed.

Lemma entry_allocated s key c :
  inv s → the_map s !! key = Some c → (c < next s)%nat.
Proof.
  intros I Hk. destruct (inv_map_leader _ I _ _ Hk) as (t & p & Ht & Hf).
  eapply leads_lt; [by eapply (inv_pc _ I)|by eapply in_flight_leads].
Qed.

(** When no goroutine is between insertion and removal, the map is empty. *)
Lemma no_leader_no_entry s :
  reachable s →
  (∀ t p key c, threads s !! t = Some p → ¬ in_flight p key c) →
  the_map s = ∅.
Proof.
  intros Hr Hnone. apply map_empty. intros key.
  destruct (the_map s !! key) as [c|] eqn:Hk; [|done].
  destruct (inv_map_leader _ (reachable_inv _ Hr) _ _ Hk) as (t & p & Ht & Hf).
  by destruct (Hnone _ _ _ _ Ht Hf).
Qed.

(** C8. In every state the group reaches while the clock never shows the
    zero instant, and for every order in which [range g.m] visits the map:
    when no call is in flight, [LongestRunningStartTime] is the zero
    instant and [Count] is 0; otherwise [LongestRunningStartTime] is the
    creation time of a call in flight, and no call in flight was created
    before it. *)
Theorem LongestRunningStartTime_is_oldest acts s entries :
  run acts init = Some s →
  clock_after_zero acts →
  range_of s entries →
  (the_map s = ∅ →
     LongestRunningStartTime s entries = zeroTime ∧ Count s = 0) ∧
  (the_map s ≠ ∅ →
     (∃ key c, the_map s !! key = Some c ∧
               LongestRunningStartTime s entries = created (heap s c)) ∧
     (∀ key c, the_map s !! key = Some c →
               LongestRunningStartTime s entries ≤ created (heap s c))).
Proof.
  intros Hrun Hclock Hrange. unfold range_of in Hrange.
  assert (inv s) as I by (apply reachable_inv; by exists acts).
  assert (∀ e, e ∈ entries ↔ the_map s !! e.1 = Some e.2) as Hmem.
  { intros [k c]. rewrite Hrange. apply elem_of_map_to_list. }
  assert (Forall (λ e, created (heap s e.2) ≠ zeroTime) entries) as Hall.
  { apply Forall_forall. intros e He. apply list_elem_of_In, Hmem in He.
    eapply (run_created acts init s); [done|done|simpl; lia|].
    by eapply entry_allocated. }
  split.
  - intros Hempty. unfold Count. rewrite Hempty in *.
    rewrite map_to_list_empty in Hrange.
    apply Permutation_nil_r in Hrange as ->. done.
  - intros Hne. destruct entries as [|e l].
    { symmetry in Hrange. apply Permutation_nil_r in Hrange.
      by apply map_to_list_empty_iff in Hrange. }
    apply Forall_cons_1 in Hall as [He Hl].
    unfold LongestRunningStartTime. simpl.
    assert (oldest_step (heap s) zeroTime e = created (heap s e.2)) as ->
      by done.
    destruct (oldest_fold (heap s) l _ He Hl) as (_ & Hle & Hmin & Hor).
    split.
    + destruct Hor as [Hor|(e' & He' & Hor)].
      * exists e.1, e.2. split; [apply Hmem; by left|done].
      * exists e'.1, e'.2. split; [apply Hmem; by right|done].
    + intros key c Hk. apply (Hmem (key, c)) in Hk.
      apply elem_of_cons in Hk as [<-|Hk]; [done|].
      by apply (Hmin (key, c)).
Qed.

(** ** Lock *)

(** While a [Lock(fn)] holds the mutex no [Do] gets to look at the map, so
    no new call is inserted; a loader that is already running goes on. *)
Lemma Lock_holds_back_new_calls s t key fn now :
  g_mu s = true → threads s !! t = Some (AtEntry key fn) →
  step (Sched t now) s = None.
Proof. intros Hmu Ht. simpl. rewrite Ht. simpl. by rewrite Hmu. Qed.

Lemma Lock_leaves_running_loaders s t key c fn now :
  threads s !! t = Some (AtCall key c fn) → is_Some (step (Sched t now) s).
Proof. intros Ht. simpl. rewrite Ht. simpl. eauto. Qed.

(** ** More of singleflight.go *)

Lemma filter_length_set_thread (f : @pc V → bool) ths t p q :
  ths !! t = Some p →
  (length (List.filter f (<[t := q]> ths)) + (if f p then 1 else 0) =
   length (List.filter f ths) + (if f q then 1 else 0))%nat.
Proof.
  revert t. induction ths as [|x l IH]; intros [|t] Ht; simplify_eq/=.
  - destruct (f p), (f q); simpl; lia.
  - specialize (IH _ Ht). destruct (f x); simpl; lia.
Qed.

Lemma step_leaders a s s' :
  inv s → step a s = Some s' →
  size (the_map s) = leaders s → size (the_map s') = leaders s'.
Proof.
  intros I Hs Hsize. unfold leaders in *.
  destruct a as [key fn|t now| |]; simpl in Hs.
  - simplify_eq. unfold the_map in *. simpl.
    rewrite List.filter_app, length_app. simpl. lia.
  - destruct (threads s !! t) as [p|] eqn:Ht; simpl in Hs; [|done].
    pose proof (inv_pc _ I _ _ Ht) as Hp.
    destruct p as [key fn|key c|key c fn|key c r|key c r|who r];
      simpl in Hs, Hp.
    + destruct (g_mu s); [done|].
      destruct (the_map s !! key) as [c|] eqn:Hk; simplify_eq;
        unfold the_map in *; simpl;
        match goal with
        | |- context [<[t := ?q]> (threads s)] =>
            pose proof (filter_length_set_thread leading _ _ _ q Ht) as Hlen
        end; simpl in Hlen.
      * lia.
      * rewrite map_size_insert_None by done. lia.
    + case_decide; simplify_eq. unfold the_map in *. simpl.
      pose proof (filter_length_set_thread leading _ _ _
        (Exited (Follower key c) (Returns (val (heap s c)) (err (heap s c))))
        Ht) as Hlen.
      simpl in Hlen. lia.
    + simplify_eq. unfold the_map in *. simpl.
      pose proof (filter_length_set_thread leading _ _ _
        (AtDone key c (leaves fn (store fn (heap s c)))) Ht) as Hlen.
      simpl in Hlen. lia.
    + simplify_eq. unfold the_map in *. simpl.
      pose proof (filter_length_set_thread leading _ _ _
        (AtDelete key c r) Ht) as Hlen.
      simpl in Hlen. lia.
    + destruct (g_mu s); [done|]. simplify_eq.
      destruct Hp as (_ & Hm & _). unfold the_map in *. simpl.
      rewrite default_delete, map_size_delete_Some by eauto.
      pose proof (filter_length_set_thread leading _ _ _
        (Exited (Leader key c) r) Ht) as Hlen.
      simpl in Hlen. lia.
    + done.
  - destruct (g_mu s); by simplify_eq.
  - destruct (g_mu s); by simplify_eq.
Qed.

Lemma run_leaders acts s s' :
  inv s → run acts s = Some s' →
  size (the_map s) = leaders s → size (the_map s') = leaders s'.
Proof.
  revert s. induction acts as [|a acts IH]; intros s I Hrun Hsize;
    simpl in Hrun.
  - by simplify_eq.
  - destruct (step a s) as [s1|] eqn:Hstep; simpl in Hrun; [|done].
    eapply (IH s1); [by eapply step_inv|done|by eapply step_leaders].
Qed.

(** X1. [Count] is the number of goroutines that lead a call in flight:
    the goroutines that wait on a call, that have not looked at the map
    yet, or that have left [Do], do not count. *)
Theorem Count_counts_leaders s :
  reachable s → Count s = Z.of_nat (leaders s).
Proof.
  intros [acts Hrun]. unfold Count. f_equal.
  eapply (run_leaders acts init); [apply init_inv|done|done].
Qed.

Lemma step_under_Lock a s s' :
  g_mu s = true → a ≠ Unlock → step a s = Some s' →
  g_mu s' = true ∧ g_m s' = g_m s ∧ next s' = next s.
Proof.
  intros Hmu Ha Hs. destruct a as [key fn|t now| |]; simpl in Hs.
  - by simplify_eq.
  - destruct (threads s !! t) as [p|]; simpl in Hs; [|done].
    destruct p; simpl in Hs; rewrite ?Hmu in Hs; try done;
      try case_decide; by simplify_eq.
  - by rewrite Hmu in Hs.
  - done.
Qed.

(** X2. From the moment a [Lock(fn)] holds the mutex until its [Unlock],
    whatever the goroutines inside [Do] and new callers of [Do] do, the map
    is what it was: no entry comes, none goes, and no call is made. *)
Theorem Lock_freezes_the_map acts s s' :
  g_mu s = true → Unlock ∉ acts → run acts s = Some s' →
  g_mu s' = true ∧ g_m s' = g_m s ∧ Count s' = Count s ∧ next s' = next s.
Proof.
  revert s. induction acts as [|a acts IH]; intros s Hmu Hno Hrun;
    simpl in Hrun.
  - by simplify_eq.
  - destruct (step a s) as [s1|] eqn:Hstep; simpl in Hrun; [|done].
    apply not_elem_of_cons in Hno as [Ha Hno].
    destruct (step_under_Lock a s s1 Hmu (not_eq_sym Ha) Hstep)
      as (Hmu1 & Hm1 & Hn1).
    destruct (IH s1 Hmu1 Hno Hrun) as (? & Hm & Hc & Hn).
    unfold Count, the_map in *. rewrite Hm, Hm1 in *.
    split_and!; [done|done|done|congruence].
Qed.

Lemma run_step a acts s s1 :
  step a s = Some s1 → run (a :: acts) s = run acts s1.
Proof. intros Hs. simpl. by rewrite Hs. Qed.

(** X3. A [Do(key, fn)] that finds no call for [key], while no [Lock(fn)]
    holds the mutex, runs from its call to its return without waiting for
    anybody: it runs [fn] once, what leaves it is what [fn] did, and the
    map is left as it was found. *)
Theorem Do_alone_returns_its_loader s key fn now :
  g_mu s = false → the_map s !! key = None →
  ∃ s',
    run (Do_alone (length (threads s)) key fn now) s = Some s' ∧
    threads s' = (threads s ++ [Exited (Leader key (next s)) fn])%list ∧
    execs s' = (length (threads s), next s, fn) :: execs s ∧
    the_map s' = the_map s ∧ g_mu s' = false ∧
    wg (heap s' (next s)) = 0%nat ∧ created (heap s' (next s)) = now.
Proof.
  intros Hmu Hk. destruct s as [mu gm h n ths ex].
  unfold the_map in *. cbn [g_mu g_m heap next threads execs] in *. subst mu.
  set (t := length ths).
  assert (∀ x y : @pc V, <[t := y]> (ths ++ [x])%list = (ths ++ [y])%list)
    as Hset.
  { intros x y. unfold t. rewrite insert_app_r_alt by lia.
    by rewrite Nat.sub_diag. }
  assert (∀ x : @pc V, (ths ++ [x])%list !! t = Some x) as Hget.
  { intros x. by apply list_lookup_middle. }
  set (c0 := Call 1 now None (Some leaderPanicked) : @call V).
  set (m1 := Some (<[key := n]> (default ∅ gm))).
  set (h1 := <[n := c0]> h).
  set (h2 := <[n := store fn (h1 n)]> h1).
  set (h3 := <[n := Call (wg (h2 n) - 1) (created (h2 n)) (val (h2 n))
                          (err (h2 n))]> h2).
  set (ex1 := (t, n, fn) :: ex).
  assert (step (Sched t now)
            (State false gm h n (ths ++ [AtEntry key fn]) ex)
          = Some (State false m1 h1 (S n) (ths ++ [AtCall key n fn]) ex))
    as H1.
  { simpl. rewrite Hget. simpl. unfold the_map. simpl. rewrite Hk.
    by rewrite Hset. }
  assert (step (Sched t (now + 1))
            (State false m1 h1 (S n) (ths ++ [AtCall key n fn]) ex)
          = Some (State false m1 h2 (S n) (ths ++ [AtDone key n fn]) ex1))
    as H2.
  { simpl. rewrite Hget. simpl. by rewrite Hset, leaves_store. }
  assert (step (Sched t (now + 2))
            (State false m1 h2 (S n) (ths ++ [AtDone key n fn]) ex1)
          = Some (State false m1 h3 (S n) (ths ++ [AtDelete key n fn]) ex1))
    as H3.
  { simpl. rewrite Hget. simpl. by rewrite Hset. }
  assert (step (Sched t (now + 3))
            (State false m1 h3 (S n) (ths ++ [AtDelete key n fn]) ex1)
          = Some (State false (delete key <$> m1) h3 (S n)
                        (ths ++ [Exited (Leader key n) fn]) ex1))
    as H4.
  { simpl. rewrite Hget. simpl. by rewrite Hset. }
  assert (step (Do key fn) (State false gm h n ths ex)
          = Some (State false gm h n (ths ++ [AtEntry key fn]) ex))
    as H0 by done.
  eexists. split.
  { unfold Do_alone.
    rewrite (run_step _ _ _ _ H0), (run_step _ _ _ _ H1),
      (run_step _ _ _ _ H2), (run_step _ _ _ _ H3), (run_step _ _ _ _ H4).
    done. }
  simpl. rewrite delete_insert_id by done.
  unfold h3, h2, h1. rewrite !fn_lookup_insert.
  split_and!; try done; by destruct fn.
Qed.

(** X4. The goroutines that have left [Do] on a call whose loader returned
    hold what the loader returned, the leader as the followers: they all
    observe the same value and the same error. *)
Theorem callers_agree s c v e (t0 : nat) :
  reachable s → (t0, c, Returns v e) ∈ execs s →
  ∀ t who r,
    threads s !! t = Some (Exited who r) → call_of who = c →
    r = Returns v e.
Proof.
  intros Hr Hin t who r Ht Hc. pose proof (reachable_inv _ Hr) as I.
  pose proof (inv_pc _ I _ _ Ht) as Hp.
  destruct who as [key c'|key c']; simpl in Hc, Hp; subst c'.
  - destruct Hp as (Hlt & Hwg & Hin' & _).
    destruct (fired_call_ran s c I Hlt Hwg)
      as (t1 & p1 & fn & _ & _ & _ & _ & Huniq).
    destruct (Huniq _ _ Hin) as [_ <-]. by destruct (Huniq _ _ Hin').
  - destruct Hp as (Hlt & Hwg & -> & _).
    destruct (fired_call_ran s c I Hlt Hwg)
      as (t1 & p1 & fn & _ & _ & _ & Hst & Huniq).
    destruct (Huniq _ _ Hin) as [_ <-]. simpl in Hst.
    by destruct Hst as [-> ->].
Qed.

(** X5. The counter of a call's WaitGroup is 1 from the insertion of the
    call until its leader has run [c.wg.Done()], and 0 from then on:
    [Done] is run once per [Add(1)], the counter never falls below zero,
    and no follower gets past [Wait] before the leader's loader is over. *)
Theorem WaitGroup_counts_the_leader s c :
  reachable s → (c < next s)%nat →
  ∃ t p,
    threads s !! t = Some p ∧ leads p c ∧
    wg (heap s c) = (if before_Done p then 1 else 0)%nat ∧
    (∀ t' key now,
       threads s !! t' = Some (AtWait key c) → before_Done p = true →
       step (Sched t' now) s = None).
Proof.
  intros Hr Hc. pose proof (reachable_inv _ Hr) as I.
  destruct (inv_has_leader _ I c Hc) as (t & p & Ht & Hl).
  pose proof (inv_pc _ I _ _ Ht) as Hp.
  assert (wg (heap s c) = (if before_Done p then 1 else 0)%nat) as Hwg.
  { destruct p as [| | | | |[]]; simpl in *; try done; subst; tauto. }
  exists t, p. split_and!; try done.
  intros t' key now Ht' Hb. rewrite Hb in Hwg. simpl. rewrite Ht'. simpl.
  rewrite decide_False; [done|lia].
Qed.

End Flight.

(** ** The theorems at the runs of [singleflight] *)

Lemma shared_run_reachable : reachable (after shared_run).
Proof. exists shared_run. vm_compute. reflexivity. Defined.

Lemma panicking_run_reachable : reachable (after panicking_run).
Proof. exists panicking_run. vm_compute. reflexivity. Defined.

(** In [shared_run], goroutine 1 returned what the loader of goroutine 0
    returned, and did not run its own loader. *)
Lemma Do_suppresses_duplicates_witness :
  reachable (after shared_run) ∧
  threads (after shared_run) !! 1%nat
    = Some (Exited (Follower "k" 0%nat) (Returns (Some 7) None)) ∧
  no_exec_by (execs (after shared_run)) 1 ∧
  ∃ t' fn, t' ≠ 1%nat ∧ (t', 0%nat, fn) ∈ execs (after shared_run) ∧
           (∀ v e, fn = Returns v e → Returns (Some 7) None = Returns v e).
Proof.
  split; [apply shared_run_reachable|]. split; [reflexivity|].
  destruct (Do_suppresses_duplicates (after shared_run) shared_run_reachable)
    as (_ & _ & _ & _ & Hfollower).
  destruct (Hfollower 1%nat "k" 0%nat (Returns (Some 7) None) eq_refl)
    as (Hno & t' & fn & Hne & Hin & _ & Hsame).
  split; [exact Hno|]. exists t', fn. auto.
Defined.

Lemma panicking_waiting_reachable : reachable (after panicking_waiting).
Proof. exists panicking_waiting. vm_compute. reflexivity. Qed.

(** In [panicking_run] the loader of goroutine 0 panics: the panic leaves
    [Do], the entry is gone, and goroutine 1 returned nil and the seeded
    error; in [panicking_waiting] goroutine 1 waits, and the leader's
    [Done] and its own step are what brings it there. *)
Lemma Do_cleans_up_on_every_exit_witness :
  reachable (after panicking_run) ∧
  threads (after panicking_run) !! 0%nat
    = Some (Exited (Leader "k" 0%nat) (Panics 1)) ∧
  wg (heap (after panicking_run) 0%nat) = 0%nat ∧
  the_map (after panicking_run) !! "k" = None ∧
  threads (after panicking_run) !! 1%nat
    = Some (Exited (Follower "k" 0%nat)
                   (Returns None (Some leaderPanicked))) ∧
  reachable (after panicking_waiting) ∧
  step (Sched 1 104) (after panicking_waiting) = None ∧
  ∃ s', run [Sched 0 103; Sched 1 104] (after panicking_waiting) = Some s' ∧
        threads s' !! 1%nat
          = Some (Exited (Follower "k" 0%nat)
                         (Returns None (Some leaderPanicked))).
Proof.
  split; [apply panicking_run_reachable|]. split; [reflexivity|].
  destruct (Do_cleans_up_on_every_exit (after panicking_run)
              panicking_run_reachable)
    as (_ & _ & _ & Hleader & _ & Hfollower & _).
  split; [exact (proj1 (Hleader 0%nat "k" 0%nat (Panics 1) eq_refl))|].
  split; [reflexivity|].
  split.
  { assert (∃ r, threads (after panicking_run) !! 1%nat
                 = Some (Exited (Follower "k" 0%nat) r)) as [r Hr]
      by (eexists; reflexivity).
    rewrite Hr. f_equal. f_equal.
    apply (Hfollower 1%nat "k" 0%nat r 0%nat 1 Hr).
    vm_compute. left. }
  split; [apply panicking_waiting_reachable|].
  destruct (Do_cleans_up_on_every_exit (after panicking_waiting)
              panicking_waiting_reachable)
    as (_ & _ & _ & _ & _ & _ & _ & Hwaits).
  destruct (Hwaits 1%nat 0%nat "k" 0%nat 1 103 104 eq_refl eq_refl)
    as (_ & s' & Hrun & Hout & _).
  split; [reflexivity|]. by exists s'.
Defined.

(** In [two_keys_run] the calls in flight were created at 500 and at 300. *)
Lemma LongestRunningStartTime_is_oldest_witness :
  run two_keys_run init = Some (after two_keys_run) ∧
  clock_after_zero two_keys_run ∧
  range_of (after two_keys_run) [("b", 1%nat); ("a", 0%nat)] ∧
  LongestRunningStartTime (after two_keys_run) [("b", 1%nat); ("a", 0%nat)]
    = 300 ∧
  ∀ key c, the_map (after two_keys_run) !! key = Some c →
    LongestRunningStartTime (after two_keys_run) [("b", 1%nat); ("a", 0%nat)]
    ≤ created (heap (after two_keys_run) c).
Proof.
  assert (run two_keys_run init = Some (after two_keys_run)) as Hrun
    by (vm_compute; reflexivity).
  assert (clock_after_zero two_keys_run) as Hclock
    by (repeat constructor; discriminate).
  assert (range_of (after two_keys_run) [("b", 1%nat); ("a", 0%nat)]) as Hrange
    by (unfold range_of; vm_compute; apply Permutation_swap).
  split_and!; try done.
  apply (LongestRunningStartTime_is_oldest _ _ _ Hrun Hclock Hrange).
  vm_compute. discriminate.
Defined.

Lemma two_keys_run_reachable : reachable (after two_keys_run).
Proof. exists two_keys_run. vm_compute. reflexivity. Defined.

(** In [two_keys_run] three goroutines are inside [Do], two of them lead. *)
Lemma Count_counts_leaders_witness :
  reachable (after two_keys_run) ∧
  length (threads (after two_keys_run)) = 3%nat ∧
  Count (after two_keys_run) = 2.
Proof.
  split; [apply two_keys_run_reachable|]. split; [reflexivity|].
  rewrite (Count_counts_leaders (after two_keys_run) two_keys_run_reachable).
  reflexivity.
Defined.

(** Under the lock of [locked_run], the loader of goroutine 0 returns, its
    signal fires and a new caller arrives: the entry of k stays. *)
Lemma Lock_freezes_the_map_witness :
  g_mu (after locked_run) = true ∧
  (Unlock ∉ under_lock) ∧
  is_Some (run under_lock (after locked_run)) ∧
  ∀ s', run under_lock (after locked_run) = Some s' →
        the_map s' !! "k" = Some 0%nat ∧ Count s' = 1.
Proof.
  assert (g_mu (after locked_run) = true) as Hmu by reflexivity.
  assert (Unlock ∉ under_lock) as Hno.
  { unfold under_lock. rewrite !not_elem_of_cons. split_and!; try done.
    apply not_elem_of_nil. }
  split; [exact Hmu|]. split; [exact Hno|]. split; [vm_compute; eauto|].
  intros s' Hrun.
  destruct (Lock_freezes_the_map under_lock (after locked_run) s' Hmu Hno Hrun)
    as (_ & Hm & Hc & _).
  unfold the_map. rewrite Hm, Hc. split; reflexivity.
Defined.

(** After [shared_run] the map is empty again: a third [Do] for k leads, on
    a new call, and returns what its own loader returns. *)
Lemma Do_alone_returns_its_loader_witness :
  g_mu (after shared_run) = false ∧
  the_map (after shared_run) !! "k" = None ∧
  ∃ s', run (Do_alone 2 "k" (Returns (Some 9) None) 200) (after shared_run)
          = Some s' ∧
        threads s' !! 2%nat
          = Some (Exited (Leader "k" 1%nat) (Returns (Some 9) None)) ∧
        the_map s' = the_map (after shared_run).
Proof.
  assert (g_mu (after shared_run) = false) as Hmu by reflexivity.
  assert (the_map (after shared_run) !! "k" = None) as Hk by reflexivity.
  split; [exact Hmu|]. split; [exact Hk|].
  destruct (Do_alone_returns_its_loader (after shared_run) "k"
              (Returns (Some 9) None) 200 Hmu Hk)
    as (s' & Hrun & Hths & _ & Hm & _).
  exists s'. split; [exact Hrun|]. split; [|exact Hm].
  rewrite Hths. reflexivity.
Defined.

(** In [shared_run] both goroutines hold 7 and no error. *)
Lemma callers_agree_witness :
  reachable (after shared_run) ∧
  (0%nat, 0%nat, Returns (Some 7) None) ∈ execs (after shared_run) ∧
  ∀ t who r,
    threads (after shared_run) !! t = Some (Exited who r) →
    call_of who = 0%nat → r = Returns (Some 7) None.
Proof.
  assert ((0%nat, 0%nat, @Returns Z (Some 7) None) ∈ execs (after shared_run))
    as Hin by (vm_compute; left).
  split; [apply shared_run_reachable|]. split; [exact Hin|].
  exact (callers_agree (after shared_run) 0%nat (Some 7) None 0%nat
           shared_run_reachable Hin).
Defined.

(** In [two_keys_run] the loader of call 1 has not returned: its counter is
    1. *)
Lemma WaitGroup_counts_the_leader_witness :
  reachable (after two_keys_run) ∧
  (1 < next (after two_keys_run))%nat ∧
  wg (heap (after two_keys_run) 1%nat) = 1%nat ∧
  ∃ t p, threads (after two_keys_run) !! t = Some p ∧ leads p 1%nat.
Proof.
  assert (1 < next (after two_keys_run))%nat as Hc by (vm_compute; lia).
  split; [apply two_keys_run_reachable|]. split; [exact Hc|].
  split; [reflexivity|].
  destruct (WaitGroup_counts_the_leader (after two_keys_run) 1%nat
              two_keys_run_reachable Hc) as (t & p & Ht & Hl & _).
  by exists t, p.
Defined.

End singleflight_spec.

(** * Properties of http.go *)

Module groupcache_spec.
Import groupcache.

(** ** Strings *)

Lemma HasPrefix_app (b x : string) : HasPrefix (b +:+ x) b = true.
Proof.
  induction b as [|a b IH]; simpl; [done|].
  rewrite bool_decide_eq_true_2 by done. done.
Qed.

Lemma str_drop_app (b x : string) : str_drop (String.length b) (b +:+ x) = x.
Proof. induction b as [|a b IH]; simpl; [by destruct x|done]. Qed.

Lemma str_take_app (g x : string) : str_take (String.length g) (g +:+ x) = g.
Proof. induction g as [|a g IH]; simpl; [by destruct x|by rewrite IH]. Qed.

Lemma IndexByte_app (g k : string) (c : ascii) :
  IndexByte g c = None →
  IndexByte (g +:+ String c k) c = Some (String.length g).
Proof.
  induction g as [|a g IH]; simpl.
  - intros _. by rewrite decide_True.
  - case_decide; [done|]. destruct (IndexByte g c); [done|].
    intros _. by rewrite IH.
Qed.

Lemma IndexByte_take (s : string) (c : ascii) (m : nat) :
  IndexByte s c = Some m → IndexByte (str_take m s) c = None.
Proof.
  revert m. induction s as [|a s IH]; intros m; simpl; [done|].
  case_decide as Hac.
  - intros [= <-]. done.
  - destruct (IndexByte s c) as [m'|] eqn:E; simpl; [|done].
    intros [= <-]. simpl. rewrite decide_False by done.
    by rewrite (IH m').
Qed.

Lemma SplitN_two (s : string) :
  SplitN s slash 2 =
  match IndexByte s slash with
  | None => [s]
  | Some m => [str_take m s; str_drop (S m) s]
  end.
Proof. unfold SplitN. simpl. by destruct (IndexByte s slash). Qed.

Lemma str_drop_past (g k : string) (c : ascii) :
  str_drop (S (String.length g)) (g +:+ String c k) = k.
Proof. induction g as [|a g IH]; simpl; [by destruct k|done]. Qed.

(** [group/key] is cut at its first separator. *)
Lemma SplitN_group_key (g key : string) :
  IndexByte g slash = None →
  SplitN (g +:+ String slash key) slash 2 = [g; key].
Proof.
  intros Hg. rewrite SplitN_two, (IndexByte_app _ _ _ Hg).
  by rewrite str_take_app, str_drop_past.
Qed.

Section Http.

Context {Ctx GroupT Sink Ring Hash HReq : Type}.
Context `{!HashRing Ring Hash, !Groups Ctx GroupT Sink, !Wire Ctx HReq}.

Local Abbreviation HTTPPool := (@HTTPPool Ctx Ring Hash HReq).
Local Abbreviation Request := (@Request Ctx).
Local Abbreviation httpGetter := (@httpGetter Ctx HReq).
Local Abbreviation RoundTripper := (@RoundTripper HReq).
Local Abbreviation Process := (@Process Ctx Ring Hash HReq).

Implicit Types (p : HTTPPool) (r : Request) (w : ResponseWriter).
Implicit Types (h : httpGetter) (st : Process).

(** ** The peer pool *)

(** C7. In a fresh process the first construction returns a pool and
    registers it as the peer picker; every construction after it, in the
    same process, panics and returns no pool.  In any process, a
    construction returns only if none returned before, and leaves the flag
    set, under which every construction panics. *)
Theorem NewHTTPPoolOpts_only_once (self_ : string) o
    (rest : list (string * option (@HTTPPoolOptions Ctx Hash HReq))) :
  (∃ p st,
     NewHTTPPoolOpts self_ o fresh = NewReturns p st ∧
     self p = self_ ∧ httpPoolMade st = true ∧ portPicker st = Some p ∧
     attempts ((self_, o) :: rest) fresh =
       NewReturns p st ::
       ((λ _, NewPanics "groupcache: NewHTTPPool must be called only once")
          <$> rest)) ∧
  (∀ st p' st', NewHTTPPoolOpts self_ o st = NewReturns p' st' →
     httpPoolMade st = false ∧ httpPoolMade st' = true) ∧
  (∀ st, httpPoolMade st = true →
     NewHTTPPoolOpts self_ o st =
       NewPanics "groupcache: NewHTTPPool must be called only once").
Proof.
  split_and!.
  - unfold NewHTTPPoolOpts at 1. simpl. eexists _, _. split; [done|].
    split_and!; try done. simpl. f_equal.
    induction rest as [|[s' o'] rest IH]; simpl; [done|]. by rewrite IH.
  - intros st p' st'. unfold NewHTTPPoolOpts.
    destruct (httpPoolMade st); [done|]. by intros [= _ <-].
  - intros st Hmade. unfold NewHTTPPoolOpts. by rewrite Hmade.
Qed.

(** After [Set], every peer of the list has its getter. *)
Lemma Set_registers p (peers_ : list string) (peer : string) :
  peer ∈ peers_ →
  httpGetters (Set_ p peers_) !! peer =
    Some (Getter (Transport (opts p)) (peer +:+ BasePath (opts p))).
Proof.
  unfold Set_. simpl. generalize (∅ : gmap string httpGetter).
  induction peers_ as [|x l IH]; intros m Hin; simpl.
  - by apply elem_of_nil in Hin.
  - destruct (decide (peer ∈ l)) as [Hl|Hl]; [by apply IH|].
    apply elem_of_cons in Hin as [->|Hin]; [|done].
    clear IH. revert m. induction l as [|y l IH]; intros m; simpl.
    + apply lookup_insert_eq.
    + apply not_elem_of_cons in Hl as [Hne Hl].
      rewrite insert_insert_ne by done. by apply IH.
Qed.

(** C6. [PickPeer] answers "no remote peer" exactly when the ring is empty
    or gives the key to the pool itself; otherwise it answers the getter
    registered for the peer the ring gives, and true; and it reads nothing
    but the ring, the pool's own name and the getters. *)
Theorem PickPeer_owner p (key : string) :
  (PickPeer p key = (None, false) ↔
     ring_IsEmpty (peers p) = true ∨ ring_Get (peers p) key = self p) ∧
  (¬ (ring_IsEmpty (peers p) = true ∨ ring_Get (peers p) key = self p) →
     PickPeer p key = (httpGetters p !! ring_Get (peers p) key, true)) ∧
  (∀ p', self p' = self p → peers p' = peers p →
         httpGetters p' = httpGetters p → PickPeer p' key = PickPeer p key).
Proof.
  unfold PickPeer. split_and!.
  - destruct (ring_IsEmpty (peers p)); [naive_solver|].
    case_decide; naive_solver.
  - intros Hn. destruct (ring_IsEmpty (peers p)); [naive_solver|].
    case_decide; naive_solver.
  - intros p' -> -> ->. done.
Qed.

(** ** The handler *)

(** C9. A request whose path does not start with the base path makes the
    handler panic: whatever the error hook is, it is not called, and the
    response writer is left as it was. *)
Theorem ServeHTTP_unexpected_path_panics p w r :
  HasPrefix (URL_Path r) (BasePath (opts p)) = false →
  ServeHTTP p w r =
    Panicked ("HTTPPool serving unexpected path: " +:+ URL_Path r) w [].
Proof. intros Hpre. unfold ServeHTTP. by rewrite Hpre. Qed.

(** C5. With the base path in front: a remainder that [SplitN] leaves in
    fewer than two parts is handed to the error hook as a malformed
    request, and a group that the registry does not have as a group not
    found; the hook is what writes the response.  The default hook, which
    [NewHTTPPoolOpts] installs when the options have none, answers 400 to
    the first, 404 to the second and 500 to any other error, with the
    error's text and a newline as body, as text/plain. *)
Theorem ServeHTTP_error_paths p w r (hook : ErrorHandler) :
  ServerErrorHandler (opts p) = Some hook →
  HasPrefix (URL_Path r) (BasePath (opts p)) = true →
  ((length (SplitN (str_drop (String.length (BasePath (opts p))) (URL_Path r))
                   slash 2) < 2)%nat →
   ServeHTTP p w r =
     Served (hook (ctx_of p r) w r
               (BadGroupcacheRequestError
                  "invalid request URL (missing path parts)"))
            [EvHandled (BadGroupcacheRequestError
                          "invalid request URL (missing path parts)")]) ∧
  (∀ g key,
     SplitN (str_drop (String.length (BasePath (opts p))) (URL_Path r))
            slash 2 = [g; key] →
     GetGroup g = None →
     ServeHTTP p w r =
       Served (hook (ctx_of p r) w r (GroupNotFoundError g))
              [EvGetGroup g; EvHandled (GroupNotFoundError g)]) ∧
  (∀ self_ o st p' st',
     NewHTTPPoolOpts self_ o st = NewReturns p' st' →
     ServerErrorHandler (opts p') =
       Some (default DefaultServerErrorHandler (o ≫= ServerErrorHandler))) ∧
  (∀ ctx w0 err,
     status w0 = None →
     let w' := DefaultServerErrorHandler ctx w0 r err in
     status w' = Some (match err with
                       | BadGroupcacheRequestError _ => 400
                       | GroupNotFoundError _ => 404
                       | _ => 500
                       end) ∧
     written w' = written w0 +:+ (Error err +:+ newline) ∧
     Header w' !! "Content-Type" = Some "text/plain; charset=utf-8").
Proof.
  intros Hhook Hpre. split_and!.
  - intros Hlen. unfold ServeHTTP, handle. rewrite Hpre, Hhook. simpl.
    fold (ctx_of p r).
    destruct (SplitN _ slash 2) as [|x [|y [|z l]]]; simpl in *; try done; lia.
  - intros g key Hparts Hg. unfold ServeHTTP, handle.
    rewrite Hpre, Hparts, Hg, Hhook. done.
  - intros self_ o st p' st'. unfold NewHTTPPoolOpts.
    destruct (httpPoolMade st); [done|]. intros [= <- _]. simpl.
    destruct o as [o|]; simpl; [|done]. by destruct (ServerErrorHandler o).
  - intros ctx w0 err Hst. unfold DefaultServerErrorHandler.
    destruct err; simpl; unfold http_Error, Write, WriteHeader; simpl;
      rewrite Hst; simpl;
      (split_and!; [done|done|by rewrite lookup_insert_ne, lookup_insert_eq]).
Qed.

(** A name that the handler looks up in the registry has no separator. *)
Lemma looked_up_name_no_separator p w r (name : string) :
  @EvGetGroup GroupT name ∈ trace_of (ServeHTTP p w r) →
  IndexByte name slash = None.
Proof.
  unfold ServeHTTP, handle.
  destruct (HasPrefix (URL_Path r) _); simpl; [|by intros ?%elem_of_nil].
  rewrite SplitN_two.
  destruct (IndexByte (str_drop _ _) slash) as [m|] eqn:Hm; simpl.
  2: { destruct (ServerErrorHandler (opts p)); simpl;
         [|by intros ?%elem_of_nil].
       intros Hin. by apply list_elem_of_singleton in Hin. }
  apply IndexByte_take in Hm.
  assert (∀ l : list (@event GroupT),
            (∀ x, x ∈ l → ∀ n, x ≠ EvGetGroup n) →
            EvGetGroup name ∈ EvGetGroup (str_take m (str_drop
              (String.length (BasePath (opts p))) (URL_Path r))) :: l →
            IndexByte name slash = None) as Hhead.
  { intros l Hl Hin. apply elem_of_cons in Hin as [[= ->]|Hin]; [done|].
    by destruct (Hl _ Hin name). }
  destruct (GetGroup _) as [grp|]; simpl.
  2: { destruct (ServerErrorHandler (opts p)); simpl;
         apply Hhead; intros x Hx n; set_solver. }
  case_decide; simpl.
  { apply Hhead. intros x Hx n. set_solver. }
  destruct (group_Get _ _ _) as [[err|] value]; simpl.
  { destruct (ServerErrorHandler (opts p)); simpl;
      apply Hhead; intros x Hx n; set_solver. }
  destruct (sink_view value); simpl.
  { destruct (ServerErrorHandler (opts p)); simpl;
      apply Hhead; intros x Hx n; set_solver. }
  destruct (Marshal _); simpl.
  { destruct (ServerErrorHandler (opts p)); simpl;
      apply Hhead; intros x Hx n; set_solver. }
  apply Hhead; intros x Hx n; set_solver.
Qed.

(** C10. The remainder is cut at its first separator only.  For a group
    name [g] without separator and any [key], also empty, also with
    separators in it: [g/key] is cut into [g] and [key]; when [g] is
    registered, the handler bumps its request counter and then removes, or
    gets, exactly [key].  And whatever the request, a name that the handler
    looks up in the registry has no separator in it. *)
Theorem ServeHTTP_splits_at_first_separator p w r (g key : string)
    (group : GroupT) :
  URL_Path r = BasePath (opts p) +:+ g +:+ String slash key →
  IndexByte g slash = None →
  GetGroup g = Some group →
  SplitN (str_drop (String.length (BasePath (opts p))) (URL_Path r)) slash 2
    = [g; key] ∧
  (Method r = MethodDelete →
     ServeHTTP p w r =
       Served w [EvGetGroup g; EvServerRequests group;
                 EvLocalRemove group key]) ∧
  (Method r ≠ MethodDelete →
     take 3 (trace_of (ServeHTTP p w r)) =
       [EvGetGroup g; EvServerRequests group; EvGet group key]) ∧
  (∀ w0 r0 name,
     EvGetGroup name ∈ trace_of (ServeHTTP p w0 r0) →
     IndexByte name slash = None).
Proof.
  intros Hpath Hg Hgroup.
  assert (SplitN (str_drop (String.length (BasePath (opts p))) (URL_Path r))
                 slash 2 = [g; key]) as Hparts.
  { rewrite Hpath, str_drop_app. by apply SplitN_group_key. }
  assert (HasPrefix (URL_Path r) (BasePath (opts p)) = true) as Hpre.
  { rewrite Hpath. apply HasPrefix_app. }
  split_and!; [done| | |].
  - intros Hm. unfold ServeHTTP. rewrite Hpre, Hparts, Hgroup. simpl.
    by rewrite decide_True.
  - intros Hm. unfold ServeHTTP, handle. rewrite Hpre, Hparts, Hgroup. simpl.
    rewrite decide_False by done.
    destruct (group_Get _ _ _) as [[err|] value]; simpl.
    { by destruct (ServerErrorHandler (opts p)). }
    destruct (sink_view value); simpl.
    { by destruct (ServerErrorHandler (opts p)). }
    destruct (Marshal _); simpl; [|done].
    by destruct (ServerErrorHandler (opts p)).
  - intros w0 r0 name. apply looked_up_name_no_separator.
Qed.
(** ** The client *)

Lemma makeRequest_eq h (ctx : Ctx) (method : string)
    (in_ : GetRequest) :
  makeRequest h ctx method in_ =
  match NewRequestWithContext ctx method (url_of h in_) with
  | inl err => inl err
  | inr req => transport_of h ctx req
  end.
Proof.
  unfold makeRequest, url_of, transport_of.
  destruct (NewRequestWithContext _ _ _) as [err|req]; [done|].
  by destruct (match getTransport h with
              | Some f => f ctx
              | None => DefaultTransport
              end req).
Qed.

Lemma str_take_all (s : string) : str_take (String.length s) s = s.
Proof. induction s as [|a s IH]; simpl; [done|by rewrite IH]. Qed.

(** [Get] on a response: what it returns, and the buffers it leaves. *)
Lemma Get_on_response h (ctx : Ctx) (in_ : GetRequest) bs pick res :
  makeRequest h ctx MethodGet in_ = inr res →
  Get h ctx in_ bs pick =
    (if decide (StatusCode res ≠ StatusOK)
     then inl (newRemoteLoadErrorWithResp in_ res
                 (Buffer_Bytes (Get_takes bs pick)
                               (Get_fills bs pick (Body res)))
                 (errorString ("non-OK response code: " +:+
                               Itoa (StatusCode res) +:+ " " +:+ Status res)))
     else match readErr (Body res) with
          | Some err =>
              inl (newRemoteLoadErrorWithResp in_ res nil_slice
                     (Wrapf err "reading response body"))
          | None =>
              match Unmarshal (data (Body res)) with
              | inl err =>
                  inl (newRemoteLoadErrorWithResp in_ res
                         (Buffer_Bytes (Get_takes bs pick)
                                       (Get_fills bs pick (Body res)))
                         (Wrapf err "decoding response body"))
              | inr out => inr out
              end
          end,
     Get_leaves bs pick (Body res)).
Proof.
  intros Hres. unfold Get. rewrite Hres.
  unfold set_buf, pool_Put, io_Copy, Get_leaves, Get_fills, Get_takes.
  cbn [bufs made pooled fst snd]. rewrite !fn_lookup_insert.
  cbn [allocated contents modified Reset fst snd].
  change ("" +:+ data (Body res)) with (data (Body res)).
  case_decide; [done|].
  destruct (readErr (Body res)); [done|].
  by destruct (Unmarshal (data (Body res))).
Qed.


(** The buffer is in the pool when [Get] has returned, and it holds the
    body; the slice [Get] took of it reads as the body until the buffer is
    modified, and is nil when the buffer never got an array. *)
Lemma Get_leaves_the_buffer bs pick src :
  Get_takes bs pick ∈ pooled (Get_leaves bs pick src) ∧
  bufs (Get_leaves bs pick src) (Get_takes bs pick) = Get_fills bs pick src ∧
  contents (Get_fills bs pick src) = data src ∧
  bytes_of (Get_leaves bs pick src)
           (Buffer_Bytes (Get_takes bs pick) (Get_fills bs pick src))
    = Some (data src) ∧
  (Buffer_Bytes (Get_takes bs pick) (Get_fills bs pick src) = nil_slice ↔
   allocated (bufs (pool_Get bs pick).2 (Get_takes bs pick)) = false ∧
   writerTo src = true ∧ data src = "").
Proof.
  assert (bufs (Get_leaves bs pick src) (Get_takes bs pick)
          = Get_fills bs pick src) as Hbuf.
  { unfold Get_leaves. cbn [bufs]. by rewrite fn_lookup_insert. }
  split_and!; try done.
  - unfold Get_leaves. cbn [pooled]. apply list_elem_of_here.
  - unfold Buffer_Bytes.
    destruct (allocated (Get_fills bs pick src)) eqn:Halloc.
    + unfold bytes_of. rewrite Hbuf. rewrite decide_True by done.
      cbn [contents Get_fills]. by rewrite str_take_all.
    + unfold Get_fills in Halloc. cbn [allocated] in Halloc.
      apply orb_false_elim in Halloc as [_ Hdata].
      apply bool_decide_eq_false in Hdata.
      destruct (decide (data src = "")) as [->|]; [done|by destruct Hdata].
  - unfold Buffer_Bytes, Get_fills. cbn [allocated].
    destruct (allocated (bufs (pool_Get bs pick).2 (Get_takes bs pick)));
      destruct (writerTo src); simpl;
      try (split; [done|by intros (? & ? & ?)]).
    case_bool_decide as Hdata; simpl.
    + split; [done|]. by intros (_ & _ & ?).
    + split; [|done]. intros _. split_and!; try done.
Qed.

(** A later [Get] that is handed the same buffer modifies it: the slice
    the earlier [Get] took no longer reads as its body. *)
Lemma Get_reuses_the_buffer bs pick src i src' :
  pooled (Get_leaves bs pick src) !! i = Some (Get_takes bs pick) →
  Get_takes (Get_leaves bs pick src) (Some i) = Get_takes bs pick ∧
  contents (bufs (Get_leaves (Get_leaves bs pick src) (Some i) src')
                 (Get_takes bs pick)) = data src' ∧
  ∀ n, bytes_of (Get_leaves (Get_leaves bs pick src) (Some i) src')
                (slice_of (Get_takes bs pick)
                          (modified (Get_fills bs pick src)) n) = None.
Proof.
  intros Hi.
  assert (Get_takes (Get_leaves bs pick src) (Some i) = Get_takes bs pick)
    as Htakes.
  { unfold Get_takes at 1. unfold pool_Get. by rewrite Hi. }
  assert (bufs (pool_Get (Get_leaves bs pick src) (Some i)).2
               (Get_takes bs pick) = Get_fills bs pick src) as Hold.
  { unfold pool_Get. rewrite Hi. cbn [snd bufs].
    apply Get_leaves_the_buffer. }
  assert (bufs (Get_leaves (Get_leaves bs pick src) (Some i) src')
               (Get_takes bs pick)
          = Get_fills (Get_leaves bs pick src) (Some i) src') as Hnew.
  { pose proof (Get_leaves_the_buffer (Get_leaves bs pick src) (Some i) src')
      as (_ & Hbuf & _).
    by rewrite Htakes in Hbuf. }
  split_and!; [done| |].
  - by rewrite Hnew.
  - assert (modified (Get_fills (Get_leaves bs pick src) (Some i) src')
            = S (S (modified (Get_fills bs pick src)))) as Hmod.
    { unfold Get_fills at 1. cbn [modified]. by rewrite Htakes, Hold. }
    intros n. unfold bytes_of. rewrite Hnew.
    rewrite decide_False by (rewrite Hmod; lia). done.
Qed.

(** C4, as amended.  Every error of [Get] has the remote-load shape, and
    [Unwrap] gives its cause.  The cause is the error of [makeRequest]
    itself when the request could not be made or sent; a new error that
    names the status when the status is not 200, whether the body could be
    read or not; and, when the status is 200, the error of reading or of
    decoding the body under the two layers of [errors.Wrapf], so that two
    more [Unwrap] give it.  [Remove] does not normalize: its error is the
    error of [makeRequest] as it came, or a plain message about a status
    that is not 200. *)
Theorem client_errors h (ctx : Ctx) (in_ : GetRequest) :
  (∀ bs pick e bs',
     Get h ctx in_ bs pick = (inl e, bs') →
     normalized e ∧
     ((∃ u, makeRequest h ctx MethodGet in_ = inl u ∧
            e = RemoteLoadError (pb_GetGroup in_) (pb_GetKey in_) 0 ""
                                nil_slice (Some u) ∧
            Unwraps 1 e = Some u) ∨
      (∃ res body,
         makeRequest h ctx MethodGet in_ = inr res ∧
         StatusCode res ≠ StatusOK ∧
         e = RemoteLoadError (pb_GetGroup in_) (pb_GetKey in_)
               (StatusCode res) (Status res) body
               (Some (errorString ("non-OK response code: " +:+
                                   Itoa (StatusCode res) +:+ " " +:+
                                   Status res))) ∧
         Unwraps 2 e = None) ∨
      (∃ res u,
         makeRequest h ctx MethodGet in_ = inr res ∧
         StatusCode res = StatusOK ∧ readErr (Body res) = Some u ∧
         e = RemoteLoadError (pb_GetGroup in_) (pb_GetKey in_)
               (StatusCode res) (Status res) nil_slice
               (Some (withStack (withMessage u "reading response body"))) ∧
         Unwraps 3 e = Some u) ∨
      (∃ res u body,
         makeRequest h ctx MethodGet in_ = inr res ∧
         StatusCode res = StatusOK ∧ readErr (Body res) = None ∧
         Unmarshal (data (Body res)) = inl u ∧
         e = RemoteLoadError (pb_GetGroup in_) (pb_GetKey in_)
               (StatusCode res) (Status res) body
               (Some (withStack (withMessage u "decoding response body"))) ∧
         Unwraps 3 e = Some u))) ∧
  (∀ e, Remove h ctx in_ = Some e →
     makeRequest h ctx MethodDelete in_ = inl e ∨
     ∃ res msg, makeRequest h ctx MethodDelete in_ = inr res ∧
                StatusCode res ≠ StatusOK ∧ e = errorString msg).
Proof.
  split.
  - intros bs pick e bs'.
    destruct (makeRequest h ctx MethodGet in_) as [u|res] eqn:Hmake.
    { unfold Get. rewrite Hmake. intros [= <- _].
      split; [by eexists _, _, _, _, _, _|]. left. by exists u. }
    rewrite (Get_on_response h ctx in_ bs pick res Hmake).
    unfold normalized, newRemoteLoadErrorWithResp.
    case_decide as Hcode.
    { intros [= <- _]. split; [by eexists _, _, _, _, _, _|].
      right; left. by eexists res, _. }
    assert (StatusCode res = StatusOK) as Hok.
    { destruct (decide (StatusCode res = StatusOK)); [done|by destruct Hcode]. }
    destruct (readErr (Body res)) as [u|] eqn:Hread.
    { intros [= <- _]. split; [by eexists _, _, _, _, _, _|].
      right; right; left. by exists res, u. }
    destruct (Unmarshal (data (Body res))) as [u|out] eqn:Hdec; [|done].
    intros [= <- _]. split; [by eexists _, _, _, _, _, _|].
    right; right; right. by eexists res, u, _.
  - intros e. unfold Remove.
    destruct (makeRequest h ctx MethodDelete in_) as [u|res].
    { intros [= <-]. by left. }
    case_decide as Hcode; [|done].
    destruct (readErr (Body res)); intros [= <-]; right; by eexists _, _.
Qed.

(** ** More of http.go: the peer set *)

Lemma Set_fold_lookup (G : string → httpGetter) (l : list string)
    (m : gmap string httpGetter) (peer : string) :
  foldl (λ m peer, <[peer := G peer]> m) m l !! peer =
  if decide (peer ∈ l) then Some (G peer) else m !! peer.
Proof.
  revert m. induction l as [|x l IH]; intros m; cbn [foldl].
  - destruct (decide (peer ∈ [])) as [Hin|_]; [|done].
    by apply elem_of_nil in Hin.
  - rewrite IH. destruct (decide (peer ∈ l)) as [Hl|Hl].
    + rewrite decide_True; [done|by right].
    + destruct (decide (peer = x)) as [->|Hne].
      * rewrite decide_True by (by left). apply lookup_insert_eq.
      * rewrite decide_False.
        -- by rewrite lookup_insert_ne.
        -- rewrite not_elem_of_cons. done.
Qed.

(** X6. [Set] replaces the getters wholesale: afterwards a peer has a
    getter exactly when it is in the list (once or more often), whatever
    the getters were before, and its getter asks at the peer's address
    followed by the base path, through the transport of the options.  The
    pool's own name and options stay. *)
Theorem Set_registers_exactly_the_list p (peers_ : list string)
    (peer : string) :
  httpGetters (Set_ p peers_) !! peer =
    (if decide (peer ∈ peers_)
     then Some (Getter (Transport (opts p)) (peer +:+ BasePath (opts p)))
     else None) ∧
  (∀ g, httpGetters (Set_ p peers_) !! peer = Some g →
        GetURL g = peer +:+ BasePath (opts p)) ∧
  self (Set_ p peers_) = self p ∧ opts (Set_ p peers_) = opts p.
Proof.
  assert (httpGetters (Set_ p peers_) !! peer =
          (if decide (peer ∈ peers_)
           then Some (Getter (Transport (opts p))
                             (peer +:+ BasePath (opts p)))
           else None)) as Hlookup.
  { unfold Set_. simpl.
    rewrite (Set_fold_lookup
               (λ peer, Getter (Transport (opts p))
                               (peer +:+ BasePath (opts p)))).
    by rewrite lookup_empty. }
  split_and!; try done.
  intros g. rewrite Hlookup. case_decide; [|done]. by intros [= <-].
Qed.

(** X7. After [Set], for a key that the ring gives to a peer of the list:
    [PickPeer] answers nil and false when the peer is the pool itself, and
    otherwise the peer's getter and true, never a nil getter with true. *)
Theorem PickPeer_after_Set p (peers_ : list string) (key : string) :
  ring_IsEmpty (peers (Set_ p peers_)) = false →
  ring_Get (peers (Set_ p peers_)) key ∈ peers_ →
  PickPeer (Set_ p peers_) key =
    if decide (ring_Get (peers (Set_ p peers_)) key = self p)
    then (None, false)
    else (Some (Getter (Transport (opts p))
                       (ring_Get (peers (Set_ p peers_)) key +:+
                        BasePath (opts p))),
          true).
Proof.
  intros Hne Hin. unfold PickPeer. rewrite Hne.
  change (self (Set_ p peers_)) with (self p).
  destruct (decide (ring_Get (peers (Set_ p peers_)) key = self p)) as [He|He].
  - by rewrite decide_False by (intros Hn; by apply Hn).
  - rewrite decide_True by done. f_equal.
    unfold Set_ at 1. simpl.
    rewrite (Set_fold_lookup
               (λ peer, Getter (Transport (opts p))
                               (peer +:+ BasePath (opts p)))).
    by rewrite decide_True.
Qed.

Lemma GetAll_fold (entries : list (string * httpGetter))
    (filled : list (option httpGetter)) (k : nat) :
  (length entries ≤ k)%nat →
  foldl (λ ir e, (S ir.1, <[ir.1 := Some e.2]> ir.2))
        (length filled, (filled ++ replicate k None)%list) entries =
  ((length filled + length entries)%nat,
   (filled ++ ((λ e, Some e.2) <$> entries) ++
    replicate (k - length entries) None)%list).
Proof.
  revert filled k. induction entries as [|e l IH]; intros filled k Hk; simpl.
  - by rewrite Nat.add_0_r, Nat.sub_0_r.
  - simpl in Hk. destruct k as [|k]; [lia|]. simpl.
    replace (<[length filled := Some e.2]>
               (filled ++ None :: replicate k None)%list)
      with ((filled ++ [Some e.2]) ++ replicate k None)%list.
    2: { rewrite insert_app_r_alt by lia. rewrite Nat.sub_diag. simpl.
         by rewrite <-app_assoc. }
    replace (S (length filled)) with (length (filled ++ [Some e.2])%list)
      by (rewrite length_app; simpl; lia).
    rewrite IH by lia. rewrite length_app. simpl.
    f_equal; [lia|]. by rewrite <-app_assoc.
Qed.

(** X8. [GetAll] has one getter for each peer that has one, the pool's own
    among them when [Set] listed the pool's address, and no nil left in it,
    in whatever order Go visits the map. *)
Theorem GetAll_lists_every_getter p (entries : list (string * httpGetter)) :
  range_of p entries →
  GetAll p entries = (λ e, Some e.2) <$> entries ∧
  length (GetAll p entries) = size (httpGetters p) ∧
  (∀ g, Some g ∈ GetAll p entries ↔ ∃ peer, httpGetters p !! peer = Some g) ∧
  (∀ p0 (peers_ : list string) (peer : string),
     p = Set_ p0 peers_ → peer ∈ peers_ →
     Some (Getter (Transport (opts p0)) (peer +:+ BasePath (opts p0)))
       ∈ GetAll p entries).
Proof.
  intros Hrange. unfold range_of in Hrange.
  assert (length entries = size (httpGetters p)) as Hlen.
  { by rewrite Hrange, length_map_to_list. }
  assert (GetAll p entries = (λ e, Some e.2) <$> entries) as Heq.
  { unfold GetAll. rewrite <-Hlen.
    pose proof (GetAll_fold entries [] (length entries) (le_n _)) as Hfold.
    cbn [length app] in Hfold. rewrite Hfold. cbn [snd].
    by rewrite Nat.sub_diag, app_nil_r. }
  assert (∀ g, Some g ∈ GetAll p entries ↔
               ∃ peer, httpGetters p !! peer = Some g) as Hmem.
  { intros g. rewrite Heq, list_elem_of_fmap. split.
    - intros ([peer g'] & [= ->] & Hin). exists peer.
      rewrite Hrange in Hin. by apply elem_of_map_to_list in Hin.
    - intros [peer Hg]. exists (peer, g). split; [done|].
      rewrite Hrange. by apply elem_of_map_to_list. }
  split_and!; try done.
  - by rewrite Heq, length_fmap.
  - intros p0 peers_ peer -> Hin. apply Hmem. exists peer.
    by apply Set_registers.
Qed.

(** ** More of http.go: the handler *)

(** X9. A request that is no DELETE, whatever its method, for a key of a
    registered group that the group can get: the handler bumps the group's
    request counter, gets the key, and writes, without calling the error
    hook, the wire message of the bytes and of the expiry, which is always
    in the message and 0 for a value that does not expire; on a writer that
    has no status yet, that is status 200 with the protobuf content type. *)
Theorem ServeHTTP_serves_the_value p w r (g key : string) (group : GroupT)
    (value : Sink) (e : singleflight.Time) (body : string) :
  URL_Path r = BasePath (opts p) +:+ g +:+ String slash key →
  IndexByte g slash = None →
  GetGroup g = Some group →
  Method r ≠ MethodDelete →
  group_Get group (ctx_of p r) key = (None, value) →
  sink_view value = inr e →
  Marshal (GetResp (sink_bytes value) (Some (expire_of e))) = inr body →
  ServeHTTP p w r =
    Served (Write (Header_Set w "Content-Type" "application/x-protobuf") body)
           [EvGetGroup g; EvServerRequests group; EvGet group key] ∧
  (expire_of e = 0 ↔ e = singleflight.zeroTime ∨ UnixNano e = 0) ∧
  (status w = None →
   status (Write (Header_Set w "Content-Type" "application/x-protobuf") body)
     = Some 200 ∧
   written (Write (Header_Set w "Content-Type" "application/x-protobuf") body)
     = written w +:+ body ∧
   Header (Write (Header_Set w "Content-Type" "application/x-protobuf") body)
     !! "Content-Type" = Some "application/x-protobuf").
Proof.
  intros Hpath Hg Hgroup Hm Hget Hview Hmarshal. split_and!.
  - unfold ServeHTTP. rewrite Hpath, HasPrefix_app, str_drop_app.
    rewrite (SplitN_group_key _ _ Hg), Hgroup. simpl.
    rewrite decide_False by done.
    unfold ctx_of in Hget. rewrite Hget, Hview.
    unfold expire_of in Hmarshal. by rewrite Hmarshal.
  - unfold expire_of, singleflight.IsZero, singleflight.zeroTime.
    destruct (e =? 0) eqn:E; [|lia]. split; [left; lia|done].
  - intros Hst. unfold Write, WriteHeader, Header_Set. simpl. rewrite Hst.
    simpl. split_and!; [done|done|]. apply lookup_insert_eq.
Qed.

(** X10. Whatever the request, the handler answers at most once: it calls
    the error hook at most once, as the last thing it does and on the
    writer as it received it, and then writes nothing itself; when it does
    not call the hook, it leaves the writer alone (a panic, a DELETE) or
    writes one wire message to it. *)
Theorem ServeHTTP_answers_once p w r :
  match ServeHTTP p w r with
  | Panicked _ w' trace => w' = w ∧ ∀ err, @EvHandled GroupT err ∉ trace
  | Served w' trace =>
      (∃ f err trace0,
         ServerErrorHandler (opts p) = Some f ∧
         w' = f (ctx_of p r) w r err ∧
         trace = (trace0 ++ [EvHandled err])%list ∧
         ∀ err', @EvHandled GroupT err' ∉ trace0) ∨
      ((∀ err, @EvHandled GroupT err ∉ trace) ∧
       (w' = w ∨
        ∃ body, w' = Write (Header_Set w "Content-Type"
                              "application/x-protobuf") body))
  end.
Proof.
  assert (∀ (trace0 : list (@event GroupT)) err,
            (∀ err', EvHandled err' ∉ trace0) →
            match handle p (ctx_of p r) w r trace0 err with
            | Panicked _ w' trace => w' = w ∧ ∀ err, EvHandled err ∉ trace
            | Served w' trace =>
                (∃ f err trace1,
                   ServerErrorHandler (opts p) = Some f ∧
                   w' = f (ctx_of p r) w r err ∧
                   trace = (trace1 ++ [EvHandled err])%list ∧
                   ∀ err', EvHandled err' ∉ trace1) ∨
                ((∀ err, EvHandled err ∉ trace) ∧
                 (w' = w ∨
                  ∃ body, w' = Write (Header_Set w "Content-Type"
                                        "application/x-protobuf") body))
            end) as Hhandle.
  { intros trace0 err Hno. unfold handle.
    destruct (ServerErrorHandler (opts p)) as [f|]; [|done].
    left. by exists f, err, trace0. }
  unfold ServeHTTP. fold (ctx_of p r).
  destruct (HasPrefix _ _); simpl.
  2: { split; [done|]. intros err. apply not_elem_of_nil. }
  destruct (SplitN _ slash 2) as [|x [|y [|z l]]];
    try (apply Hhandle; intros err'; apply not_elem_of_nil).
  destruct (GetGroup x) as [group|].
  2: { apply Hhandle. intros err'. set_solver. }
  case_decide.
  { right. split; [intros err; set_solver|by left]. }
  destruct (group_Get group (ctx_of p r) y) as [[err|] value].
  { apply Hhandle. intros err'. set_solver. }
  destruct (sink_view value) as [err|e].
  { apply Hhandle. intros err'. set_solver. }
  destruct (Marshal _) as [err|body].
  { apply Hhandle. intros err'. set_solver. }
  right. split; [intros err; set_solver|]. right. by exists body.
Qed.

(** The handler panics in two ways only: on a path outside of the base
    path, and on a nil error hook. *)
Lemma ServeHTTP_panics_only_two_ways p w r :
  match ServeHTTP p w r with
  | Panicked _ _ _ =>
      HasPrefix (URL_Path r) (BasePath (opts p)) = false ∨
      ServerErrorHandler (opts p) = None
  | Served _ _ => True
  end.
Proof.
  unfold ServeHTTP, handle.
  destruct (HasPrefix _ _); simpl; [|by left].
  destruct (SplitN _ slash 2) as [|x [|y [|z l]]];
    try (destruct (ServerErrorHandler (opts p)); [done|by right]).
  destruct (GetGroup x) as [group|];
    [|destruct (ServerErrorHandler (opts p)); [done|by right]].
  case_decide; [done|].
  destruct (group_Get _ _ _) as [[err|] value];
    [destruct (ServerErrorHandler (opts p)); [done|by right]|].
  destruct (sink_view value);
    [destruct (ServerErrorHandler (opts p)); [done|by right]|].
  destruct (Marshal _); [|done].
  destruct (ServerErrorHandler (opts p)); [done|by right].
Qed.

(** ** More of http.go: construction *)

(** X11. A pool made by [NewHTTPPoolOpts], with whatever options, and then
    [Set] any number of times: its base path is not blank, its replica
    count is not 0, it has an error hook, its ring is one made with its
    replica count and hash function, every getter asks at its peer's
    address followed by the base path, and its handler does not panic on a
    path that starts with the base path. *)
Theorem built_pools_are_well_formed p :
  built p →
  BasePath (opts p) ≠ "" ∧ Replicas (opts p) ≠ 0 ∧
  is_Some (ServerErrorHandler (opts p)) ∧
  (peers p = ring_New (Replicas (opts p)) (HashFn (opts p)) ∨
   ∃ l, peers p = ring_Add (ring_New (Replicas (opts p)) (HashFn (opts p))) l) ∧
  (∀ peer g, httpGetters p !! peer = Some g →
             g = Getter (Transport (opts p)) (peer +:+ BasePath (opts p))) ∧
  (∀ w r, HasPrefix (URL_Path r) (BasePath (opts p)) = true →
          ∃ w' trace, ServeHTTP p w r = Served w' trace).
Proof.
  intros Hb.
  assert (BasePath (opts p) ≠ "" ∧ Replicas (opts p) ≠ 0 ∧
          is_Some (ServerErrorHandler (opts p)) ∧
          (peers p = ring_New (Replicas (opts p)) (HashFn (opts p)) ∨
           ∃ l, peers p = ring_Add (ring_New (Replicas (opts p))
                                             (HashFn (opts p))) l) ∧
          (∀ peer g, httpGetters p !! peer = Some g →
                     g = Getter (Transport (opts p))
                                (peer +:+ BasePath (opts p))))
    as (Hbase & Hreps & Hhook & Hring & Hget).
  { induction Hb as [self_ o st p st' Hnew|p peers_ Hb IH].
    - unfold NewHTTPPoolOpts in Hnew.
      destruct (httpPoolMade st); [done|]. injection Hnew as <- _. simpl.
      split_and!.
      + case_decide as Hblank; [done|exact Hblank].
      + destruct (Replicas _ =? 0) eqn:E; [done|lia].
      + destruct (ServerErrorHandler _); eauto.
      + by left.
      + intros peer g Hg. by rewrite lookup_empty in Hg.
    - destruct IH as (Hbase & Hreps & Hhook & _ & _).
      split_and!; try done.
      + right. by exists peers_.
      + intros peer g Hg. unfold Set_ in Hg. simpl in Hg.
        rewrite (Set_fold_lookup
                   (λ peer, Getter (Transport (opts p))
                                   (peer +:+ BasePath (opts p)))) in Hg.
        case_decide; [by simplify_eq|by rewrite lookup_empty in Hg]. }
  split_and!; try done.
  intros w r Hpre. destruct Hhook as [f Hf].
  pose proof (ServeHTTP_panics_only_two_ways p w r) as Hways.
  destruct (ServeHTTP p w r) as [msg w' trace|w' trace]; [|eauto].
  destruct Hways as [Hno|Hnil]; congruence.
Qed.

(** X12. [NewHTTPPool] in a process that has made no pool: when the default
    mux has no handler at /_groupcache/, it returns a pool with the default
    base path, 50 replicas and the default error hook, and the mux has the
    pool at /_groupcache/; when the mux has a handler there, it panics, and
    it has used up the process's one construction: every construction
    after it panics as a second one. *)
Theorem NewHTTPPool_takes_the_default_path (self_ : string) st
    (mux : gset string) :
  httpPoolMade st = false →
  (defaultBasePath ∉ mux →
   ∃ p st',
     NewHTTPPool self_ st mux = StartReturns p st' ({[defaultBasePath]} ∪ mux) ∧
     NewHTTPPoolOpts self_ None st = NewReturns p st' ∧
     self p = self_ ∧ BasePath (opts p) = defaultBasePath ∧
     Replicas (opts p) = defaultReplicas ∧
     ServerErrorHandler (opts p) = Some DefaultServerErrorHandler ∧
     httpGetters p = ∅) ∧
  (defaultBasePath ∈ mux →
   ∃ msg st',
     NewHTTPPool self_ st mux = StartPanics msg st' mux ∧
     httpPoolMade st' = true ∧
     ∀ self' o mux',
       NewHTTPPoolOpts self' o st' =
         NewPanics "groupcache: NewHTTPPool must be called only once" ∧
       NewHTTPPool self' st' mux' =
         StartPanics "groupcache: NewHTTPPool must be called only once"
                     st' mux').
Proof.
  intros Hmade. unfold NewHTTPPool, NewHTTPPoolOpts. rewrite Hmade. simpl.
  split.
  - intros Hfree. rewrite decide_False by done. by eexists _, _.
  - intros Htaken. rewrite decide_True by done. eexists _, _.
    split; [done|]. split; [done|]. done.
Qed.

(** ** The two ends together *)

(** [Remove] on the response of the round trip. *)
Lemma Remove_of_response h (ctx : Ctx) (in_ : GetRequest) req res :
  NewRequestWithContext ctx MethodDelete (url_of h in_) = inr req →
  transport_of h ctx req = inr res →
  Remove h ctx in_ =
    if decide (StatusCode res ≠ StatusOK)
    then match readErr (Body res) with
         | Some _ =>
             Some (errorString ("while reading body response: " +:+
                                Status res))
         | None =>
             Some (errorString ("server returned status " +:+
                                Itoa (StatusCode res) +:+ ": " +:+
                                data (Body res)))
         end
    else None.
Proof.
  intros Hreq Htr. unfold Remove. by rewrite makeRequest_eq, Hreq, Htr.
Qed.




(** X14. [Remove] from such a peer.  When the peer has the group, the
    peer removes exactly the key from it, writes nothing, and [Remove]
    returns nil.  When the peer does not have the group, nothing is
    removed and [Remove] returns an error that names status 404 and the
    peer's text. *)
Theorem Remove_from_a_peer p h (ctx : Ctx) (in_ : GetRequest) req res r w :
  NewRequestWithContext ctx MethodDelete (url_of h in_) = inr req →
  transport_of h ctx req = inr res →
  Method r = MethodDelete →
  URL_Path r =
    BasePath (opts p) +:+ pb_GetGroup in_ +:+ String slash (pb_GetKey in_) →
  IndexByte (pb_GetGroup in_) slash = None →
  ServerErrorHandler (opts p) = Some DefaultServerErrorHandler →
  status w = None → written w = "" →
  delivers res (ServeHTTP p w r) →
  (∀ group,
     GetGroup (pb_GetGroup in_) = Some group →
     Remove h ctx in_ = None ∧
     ServeHTTP p w r =
       Served w [EvGetGroup (pb_GetGroup in_); EvServerRequests group;
                 EvLocalRemove group (pb_GetKey in_)]) ∧
  (GetGroup (pb_GetGroup in_) = None →
   Remove h ctx in_ =
     Some (errorString ("server returned status 404: group not found: " +:+
                        Quote (pb_GetGroup in_) +:+ newline)) ∧
   ∀ group key, @EvLocalRemove GroupT group key ∉ trace_of (ServeHTTP p w r)).
Proof.
  intros Hreq Htr Hm Hpath Hg Hhook Hst Hw Hdel.
  rewrite (Remove_of_response h ctx in_ req res Hreq Htr).
  assert (HasPrefix (URL_Path r) (BasePath (opts p)) = true) as Hpre.
  { rewrite Hpath. apply HasPrefix_app. }
  assert (SplitN (str_drop (String.length (BasePath (opts p))) (URL_Path r))
                 slash 2 = [pb_GetGroup in_; pb_GetKey in_]) as Hparts.
  { rewrite Hpath, str_drop_app.
    by apply SplitN_group_key. }
  split.
  - intros group Hgroup.
    assert (ServeHTTP p w r =
            Served w [EvGetGroup (pb_GetGroup in_); EvServerRequests group;
                      EvLocalRemove group (pb_GetKey in_)]) as Hserve.
    { unfold ServeHTTP. rewrite Hpre, Hparts, Hgroup. simpl.
      by rewrite decide_True. }
    split; [|done]. rewrite Hserve in Hdel. simpl in Hdel.
    rewrite Hst in Hdel. destruct Hdel as (Hcode & _).
    by rewrite decide_False by (intros Hne; by apply Hne).
  - intros Hnone.
    assert (ServeHTTP p w r =
            Served (DefaultServerErrorHandler (ctx_of p r) w r
                      (GroupNotFoundError (pb_GetGroup in_)))
                   [EvGetGroup (pb_GetGroup in_);
                    EvHandled (GroupNotFoundError (pb_GetGroup in_))])
      as Hserve.
    { unfold ServeHTTP, handle. by rewrite Hpre, Hparts, Hnone, Hhook. }
    rewrite Hserve in *. simpl in Hdel.
    unfold http_Error, Write, WriteHeader in Hdel. simpl in Hdel.
    rewrite Hst, Hw in Hdel. simpl in Hdel.
    destruct Hdel as (Hcode & Hdata & Hread).
    rewrite decide_True by (rewrite Hcode; discriminate).
    rewrite Hread, Hcode, Hdata. split; [done|].
    intros group key. simpl. set_solver.
Qed.

(** ** The path of a request and the group and key that are served *)

Lemma HasPrefix_split (s b : string) :
  HasPrefix s b = true → s = b +:+ str_drop (String.length b) s.
Proof.
  revert s. induction b as [|a b IH]; intros s; simpl; [by destruct s|].
  destruct s as [|c s]; [done|]. simpl.
  intros [Hac Hb]%andb_prop. apply bool_decide_eq_true_1 in Hac as ->.
  change (String c s = String c (b +:+ str_drop (String.length b) s)).
  f_equal. by apply IH.
Qed.

Lemma IndexByte_split (s : string) (c : ascii) (m : nat) :
  IndexByte s c = Some m → s = str_take m s +:+ String c (str_drop (S m) s).
Proof.
  revert m. induction s as [|a s IH]; intros m; simpl; [done|].
  case_decide as Hac.
  - intros [= <-]. simpl. rewrite Hac. by destruct s.
  - destruct (IndexByte s c) as [m'|] eqn:E; simpl; [|done].
    intros [= <-].
    change (String a s =
            String a (str_take m' s +:+ String c (str_drop (S m') s))).
    f_equal. by apply IH.
Qed.

(** X16. The group name and the key that [ServeHTTP] works with are cut
    out of the path and nothing of it is lost: whenever the handler reads
    or removes [key] in a group it looked up as [name], the path of the
    request is the base path, [name], one separator and [key], in this
    order.  So two requests that are served the same name and key under
    one pool have the same path. *)
Theorem ServeHTTP_loses_nothing_of_the_path p w r (name : string) grp key :
  @EvGetGroup GroupT name ∈ trace_of (ServeHTTP p w r) →
  EvGet grp key ∈ trace_of (ServeHTTP p w r) ∨
  EvLocalRemove grp key ∈ trace_of (ServeHTTP p w r) →
  URL_Path r = BasePath (opts p) +:+ name +:+ String slash key.
Proof.
  unfold ServeHTTP, handle.
  destruct (HasPrefix (URL_Path r) (BasePath (opts p))) eqn:Hpre; simpl;
    [|by intros ?%elem_of_nil].
  apply HasPrefix_split in Hpre. rewrite SplitN_two.
  destruct (IndexByte (str_drop _ _) slash) as [m|] eqn:Hm.
  2: { simpl. destruct (ServerErrorHandler (opts p)); simpl;
         [|by intros ?%elem_of_nil].
       intros _ [Hin|Hin]; by apply list_elem_of_singleton in Hin. }
  apply IndexByte_split in Hm.
  assert (URL_Path r =
          BasePath (opts p) +:+
          str_take m (str_drop (String.length (BasePath (opts p)))
                               (URL_Path r)) +:+
          String slash
            (str_drop (S m) (str_drop (String.length (BasePath (opts p)))
                                      (URL_Path r)))) as Hpath.
  { etrans; [exact Hpre|]. f_equal. exact Hm. }
  clear Hpre Hm. revert Hpath.
  generalize (str_take m (str_drop (String.length (BasePath (opts p)))
                                   (URL_Path r))).
  generalize (str_drop (S m) (str_drop (String.length (BasePath (opts p)))
                                       (URL_Path r))).
  intros key' name' Hpath. simpl.
  assert (∀ l1 l2 : list (@event GroupT),
            (∀ x, x ∈ l1 → ∀ n, x ≠ EvGetGroup n) →
            (∀ x, x ∈ l2 → (∀ g k, x ≠ EvGet g k) ∧
                            (∀ g k, x ≠ EvLocalRemove g k) ∨
                            (∃ g, x = EvGet g key') ∨
                            (∃ g, x = EvLocalRemove g key')) →
            EvGetGroup name ∈ EvGetGroup name' :: l1 →
            EvGet grp key ∈ l2 ∨ EvLocalRemove grp key ∈ l2 →
            URL_Path r = BasePath (opts p) +:+ name +:+ String slash key)
    as Hcut.
  { intros l1 l2 Hl1 Hl2 Hn Hk.
    apply elem_of_cons in Hn as [[= ->]|Hn];
      [|by destruct (Hl1 _ Hn name)].
    destruct Hk as [Hk|Hk];
      (destruct (Hl2 _ Hk) as [[H1 H2]|[[g Hg]|[g Hg]]];
       [first [by destruct (H1 grp key)|by destruct (H2 grp key)]
       |by simplify_eq|by simplify_eq]). }
  destruct (GetGroup _) as [group|]; simpl.
  2: { destruct (ServerErrorHandler (opts p)); simpl;
         intros _ [Hin|Hin]; set_solver. }
  case_decide; simpl;
    [|destruct (group_Get _ _ _) as [[err|] value]; simpl;
      [|destruct (sink_view value); simpl; [|destruct (Marshal _); simpl]]];
    destruct (ServerErrorHandler (opts p)); simpl;
    (apply Hcut;
     [intros x Hx n; set_solver
     |intros x Hx;
      repeat (apply elem_of_cons in Hx as [->|Hx]);
      try (by apply elem_of_nil in Hx);
      first [left; split; intros; discriminate
            |right; left; by eexists
            |right; right; by eexists]]).
Qed.

End Http.

(** ** The theorems at the small deployment *)

(** A request outside of the base path. *)
Lemma ServeHTTP_unexpected_path_panics_witness :
  HasPrefix "/other/x" (BasePath (opts demo_pool)) = false ∧
  ServeHTTP demo_pool fresh_writer (demo_http_request "GET" "/other/x") =
    Panicked "HTTPPool serving unexpected path: /other/x" fresh_writer [].
Proof.
  split; [reflexivity|].
  exact (ServeHTTP_unexpected_path_panics demo_pool fresh_writer
           (demo_http_request "GET" "/other/x") eq_refl).
Defined.

(** The base path and nothing after it: 400. *)
Lemma ServeHTTP_error_paths_witness :
  ServerErrorHandler (opts demo_pool) = Some DefaultServerErrorHandler ∧
  HasPrefix "/_groupcache/" (BasePath (opts demo_pool)) = true ∧
  ∃ w, ServeHTTP demo_pool fresh_writer
         (demo_http_request "GET" "/_groupcache/") =
         Served w [EvHandled (BadGroupcacheRequestError
                                "invalid request URL (missing path parts)")] ∧
       status w = Some 400.
Proof.
  split; [reflexivity|]. split; [reflexivity|].
  destruct (ServeHTTP_error_paths demo_pool fresh_writer
              (demo_http_request "GET" "/_groupcache/")
              DefaultServerErrorHandler eq_refl eq_refl)
    as (Hbad & _ & _ & Hdefault).
  eexists. split.
  - apply Hbad. vm_compute. lia.
  - apply (Hdefault tt fresh_writer
             (BadGroupcacheRequestError
                "invalid request URL (missing path parts)") eq_refl).
Defined.

(** A group name, a separator and nothing after it: the empty key. *)
Lemma ServeHTTP_splits_at_first_separator_witness :
  IndexByte "colors" slash = None ∧
  GetGroup "colors" = Some "colors" ∧
  ServeHTTP demo_pool fresh_writer
    (demo_http_request "DELETE" "/_groupcache/colors/") =
    Served fresh_writer [EvGetGroup "colors"; EvServerRequests "colors";
                         EvLocalRemove "colors" ""].
Proof.
  assert (IndexByte "colors" slash = None) as Hname by reflexivity.
  assert (GetGroup "colors" = Some "colors") as Hgroup by reflexivity.
  split; [exact Hname|]. split; [exact Hgroup|].
  destruct (ServeHTTP_splits_at_first_separator demo_pool fresh_writer
              (demo_http_request "DELETE" "/_groupcache/colors/")
              "colors" "" "colors" eq_refl Hname Hgroup)
    as (_ & Hdelete & _).
  apply Hdelete. reflexivity.
Defined.

(** C3 at two calls of [Get] in a row.  A peer answers 500 with the body
    boom: the error has the status code, the status text and the cause the
    claim says, and its [Body] is a slice of buffer 0, which is back in the
    pool and reads boom.  The next [Get] is handed buffer 0 and reads the
    body of another response into it: the [Body] of the first error is no
    longer the body of its response, the bytes under it are now those of
    the second response.  A peer that answers with no body at all leaves a
    fresh buffer without an array, and the error's [Body] is nil. *)
Theorem Get_error_Body_is_pooled :
  first_Get.1 =
    inl (RemoteLoadError "colors" "sky" 500 "500 Internal Server Error"
           (slice_of 0 2 4)
           (Some (errorString
                    "non-OK response code: 500 500 Internal Server Error"))) ∧
  bytes_of first_Get.2 (slice_of 0 2 4) = Some "boom" ∧
  pooled first_Get.2 = [0%nat] ∧
  second_Get.1 =
    inl (RemoteLoadError "colors" "sky" 200 "200 OK" (slice_of 0 4 7)
           (Some (Wrapf (errorString "unexpected EOF")
                        "decoding response body"))) ∧
  bytes_of second_Get.2 (slice_of 0 2 4) = None ∧
  contents (bufs second_Get.2 0%nat) = "garbage" ∧
  (Get silent tt demo_request no_buffers None).1 =
    inl (RemoteLoadError "colors" "sky" 502 "502 Bad Gateway" nil_slice
           (Some (errorString "non-OK response code: 502 502 Bad Gateway"))).
Proof.
  assert (makeRequest failing tt MethodGet demo_request
          = inr (Resp 500 "500 Internal Server Error"
                      (Reader "boom" None false))) as Hfirst by reflexivity.
  assert (makeRequest garbling tt MethodGet demo_request
          = inr (Resp 200 "200 OK" (Reader "garbage" None false)))
    as Hsecond by reflexivity.
  assert (first_Get.2
          = Get_leaves no_buffers None (Reader "boom" None false)) as Hleft.
  { unfold first_Get. by rewrite (Get_on_response _ _ _ _ _ _ Hfirst). }
  assert (pooled (Get_leaves no_buffers None (Reader "boom" None false))
            !! 0%nat = Some (Get_takes no_buffers None)) as Hpick
    by reflexivity.
  destruct (Get_reuses_the_buffer no_buffers None (Reader "boom" None false)
              0%nat (Reader "garbage" None false) Hpick)
    as (_ & Hcont & Hstale).
  assert (second_Get.2
          = Get_leaves (Get_leaves no_buffers None (Reader "boom" None false))
                       (Some 0%nat) (Reader "garbage" None false)) as Hleft2.
  { unfold second_Get. rewrite Hleft.
    by rewrite (Get_on_response _ _ _ _ _ _ Hsecond). }
  split_and!.
  - reflexivity.
  - reflexivity.
  - reflexivity.
  - reflexivity.
  - rewrite Hleft2. apply (Hstale 4%nat).
  - rewrite Hleft2. exact Hcont.
  - reflexivity.
Qed.

(** C4 as it is stated fails: [Remove] from a peer that cannot be reached
    returns the transport's error as it is, which is no remote-load
    error. *)
Lemma Remove_error_is_not_normalized :
  Remove refused tt demo_request =
    Some (errorString "connection refused") ∧
  ¬ normalized (errorString "connection refused").
Proof.
  split; [reflexivity|].
  intros (g & k & code & text & body & cause & Heq & _). discriminate.
Qed.

(** [Get] from the same peer, and from the peer whose body does not
    decode. *)
Lemma client_errors_witness :
  normalized (RemoteLoadError "colors" "sky" 0 "" nil_slice
                (Some (errorString "connection refused"))) ∧
  normalized (RemoteLoadError "colors" "sky" 200 "200 OK" (slice_of 0 2 7)
                (Some (Wrapf (errorString "unexpected EOF")
                             "decoding response body"))).
Proof.
  split.
  - apply (proj1 (client_errors refused tt demo_request)
             no_buffers None _ no_buffers).
    reflexivity.
  - apply (proj1 (client_errors garbling tt demo_request)
             no_buffers None _
             (Get_leaves no_buffers None (Reader "garbage" None false))).
    reflexivity.
Defined.

(** ** The further theorems at the small deployment *)

(** The key sky belongs to 10.0.0.2, the key moon to the pool itself. *)
Lemma PickPeer_after_Set_witness :
  ring_IsEmpty (peers (Set_ demo_seed demo_peers)) = false ∧
  ring_Get (peers (Set_ demo_seed demo_peers)) "sky" ∈ demo_peers ∧
  PickPeer (Set_ demo_seed demo_peers) "sky" =
    (Some (Getter None "http://10.0.0.2:8008/_groupcache/"), true) ∧
  PickPeer (Set_ demo_seed demo_peers) "moon" = (None, false).
Proof.
  assert (ring_IsEmpty (peers (Set_ demo_seed demo_peers)) = false) as Hne
    by reflexivity.
  assert (ring_Get (peers (Set_ demo_seed demo_peers)) "sky" ∈ demo_peers)
    as Hsky by (vm_compute; right; left).
  assert (ring_Get (peers (Set_ demo_seed demo_peers)) "moon" ∈ demo_peers)
    as Hmoon by (vm_compute; left).
  split; [exact Hne|]. split; [exact Hsky|]. split.
  - rewrite (PickPeer_after_Set demo_seed demo_peers "sky" Hne Hsky).
    reflexivity.
  - rewrite (PickPeer_after_Set demo_seed demo_peers "moon" Hne Hmoon).
    reflexivity.
Defined.

(** The two getters of [demo_pool], its own among them. *)
Lemma GetAll_lists_every_getter_witness :
  range_of demo_pool (map_to_list (httpGetters demo_pool)) ∧
  length (GetAll demo_pool (map_to_list (httpGetters demo_pool))) = 2%nat ∧
  Some (Getter None "http://10.0.0.1:8008/_groupcache/")
    ∈ GetAll demo_pool (map_to_list (httpGetters demo_pool)).
Proof.
  assert (range_of demo_pool (map_to_list (httpGetters demo_pool))) as Hrange
    by (unfold range_of; reflexivity).
  destruct (GetAll_lists_every_getter demo_pool _ Hrange)
    as (_ & Hlen & _ & Hset).
  split; [exact Hrange|]. split.
  - rewrite Hlen. reflexivity.
  - apply (Hset demo_seed demo_peers "http://10.0.0.1:8008" eq_refl).
    vm_compute. left.
Defined.

(** A POST for the key sky of the group colors is answered as a GET. *)
Lemma ServeHTTP_serves_the_value_witness :
  ServeHTTP demo_pool fresh_writer
    (demo_http_request "POST" "/_groupcache/colors/sky") =
    Served (Writer {["Content-Type" := "application/x-protobuf"]}
                   (Some 200) "red")
           [EvGetGroup "colors"; EvServerRequests "colors";
            EvGet "colors" "sky"].
Proof.
  assert (IndexByte "colors" slash = None) as Hname by reflexivity.
  assert (GetGroup "colors" = Some "colors") as Hgroup by reflexivity.
  assert (Method (demo_http_request "POST" "/_groupcache/colors/sky")
          ≠ MethodDelete) as Hm by discriminate.
  assert (group_Get "colors"
            (ctx_of demo_pool
               (demo_http_request "POST" "/_groupcache/colors/sky")) "sky"
          = (None, "red")) as Hget by reflexivity.
  assert (sink_view "red" = inr 0) as Hview by reflexivity.
  assert (@Marshal unit string demo_wire
            (GetResp (sink_bytes "red") (Some (expire_of 0)))
          = inr "red") as Hmarshal by reflexivity.
  destruct (ServeHTTP_serves_the_value demo_pool fresh_writer
              (demo_http_request "POST" "/_groupcache/colors/sky")
              "colors" "sky" "colors" "red" 0 "red"
              eq_refl Hname Hgroup Hm Hget Hview Hmarshal)
    as (Hserve & _).
  rewrite Hserve. reflexivity.
Defined.

Lemma demo_pool_built : built demo_pool.
Proof.
  apply (built_Set demo_seed demo_peers).
  apply (built_new "http://10.0.0.1:8008" None fresh demo_seed
           (Proc true (Some demo_seed))).
  reflexivity.
Defined.

(** [demo_pool] is such a pool. *)
Lemma built_pools_are_well_formed_witness :
  built demo_pool ∧
  BasePath (opts demo_pool) ≠ "" ∧
  ∃ w' trace,
    ServeHTTP demo_pool fresh_writer
      (demo_http_request "GET" "/_groupcache/colors") = Served w' trace.
Proof.
  split; [apply demo_pool_built|].
  destruct (built_pools_are_well_formed demo_pool demo_pool_built)
    as (Hbase & _ & _ & _ & _ & Hserve).
  split; [exact Hbase|]. apply Hserve. reflexivity.
Defined.

(** In a fresh process, with a mux that is free and with one that is not. *)
Lemma NewHTTPPool_takes_the_default_path_witness :
  (∃ p st', NewHTTPPool (HReq := string) "http://10.0.0.1:8008" fresh ∅
              = StartReturns p st' ({[defaultBasePath]} ∪ ∅) ∧
            BasePath (opts p) = defaultBasePath ∧
            Replicas (opts p) = defaultReplicas) ∧
  (∃ msg st', NewHTTPPool (HReq := string) "http://10.0.0.1:8008" fresh
                {[defaultBasePath]}
                = StartPanics msg st' {[defaultBasePath]} ∧
              httpPoolMade st' = true).
Proof.
  destruct (NewHTTPPool_takes_the_default_path
              (Ring := list string) (Hash := unit) (HReq := string)
              (Ctx := unit)
              "http://10.0.0.1:8008" fresh ∅ eq_refl) as (Hfree & _).
  destruct (NewHTTPPool_takes_the_default_path
              (Ring := list string) (Hash := unit) (HReq := string)
              (Ctx := unit)
              "http://10.0.0.1:8008" fresh {[defaultBasePath]} eq_refl)
    as (_ & Htaken).
  split.
  - destruct Hfree as (p & st' & Hnew & _ & _ & Hbase & Hreplicas & _);
      [set_solver|].
    by exists p, st'.
  - destruct Htaken as (msg & st' & Hnew & Hmade & _); [set_solver|].
    by exists msg, st'.
Defined.


Lemma Remove_from_a_peer_witness :
  Remove joined tt demo_request = None ∧
  Remove joined tt unknown_request =
    Some (errorString
            ("server returned status 404: group not found: shapes" +:+
             newline)).
Proof.
  split.
  - refine (proj1 (proj1
              (Remove_from_a_peer joined_pool joined tt demo_request
                 ("DELETE", url_of joined demo_request)
                 (joined_response ("DELETE", url_of joined demo_request))
                 (Req "DELETE" "/_groupcache/colors/sky" tt) fresh_writer
                 _ _ _ _ _ _ _ _ _) "colors" _));
      first [reflexivity|vm_compute; done].
  - refine (proj1 (proj2
              (Remove_from_a_peer joined_pool joined tt unknown_request
                 ("DELETE", url_of joined unknown_request)
                 (joined_response ("DELETE", url_of joined unknown_request))
                 (Req "DELETE" "/_groupcache/shapes/sky" tt) fresh_writer
                 _ _ _ _ _ _ _ _ _) _));
      first [reflexivity|vm_compute; done].
Defined.

(** A removal whose key has a separator of its own. *)
Lemma ServeHTTP_loses_nothing_of_the_path_witness :
  @EvGetGroup string "colors" ∈
    trace_of (ServeHTTP demo_pool fresh_writer
                (demo_http_request "DELETE" "/_groupcache/colors/a/b")) ∧
  (EvGet "colors" "a/b" ∈
     trace_of (ServeHTTP demo_pool fresh_writer
                 (demo_http_request "DELETE" "/_groupcache/colors/a/b")) ∨
   EvLocalRemove "colors" "a/b" ∈
     trace_of (ServeHTTP demo_pool fresh_writer
                 (demo_http_request "DELETE" "/_groupcache/colors/a/b"))) ∧
  URL_Path (demo_http_request "DELETE" "/_groupcache/colors/a/b") =
    BasePath (opts demo_pool) +:+ "colors" +:+ String slash "a/b".
Proof.
  assert (@EvGetGroup string "colors" ∈
            trace_of (ServeHTTP demo_pool fresh_writer
                        (demo_http_request "DELETE" "/_groupcache/colors/a/b")))
    as Hname by (vm_compute; apply list_elem_of_here).
  assert (EvGet "colors" "a/b" ∈
            trace_of (ServeHTTP demo_pool fresh_writer
                        (demo_http_request "DELETE" "/_groupcache/colors/a/b")) ∨
          EvLocalRemove "colors" "a/b" ∈
            trace_of (ServeHTTP demo_pool fresh_writer
                        (demo_http_request "DELETE" "/_groupcache/colors/a/b")))
    as Hkey.
  { right. vm_compute. do 2 apply list_elem_of_further.
    apply list_elem_of_here. }
  split; [exact Hname|]. split; [exact Hkey|].
  exact (ServeHTTP_loses_nothing_of_the_path demo_pool fresh_writer
           (demo_http_request "DELETE" "/_groupcache/colors/a/b")
           "colors" "colors" "a/b" Hname Hkey).
Defined.

End groupcache_spec.
